(** * yar (robber/analysis.go): the secret-detection and scanning pipeline

    A shallow embedding of [robber/analysis.go]: the pattern detector
    [AnalyzeRegexDiff], the entropy detector [AnalyzeEntropyDiff], the
    worker body [AnalyzeRepo] and the completion protocol on [RepoCount],
    followed by the properties of the design document checked against it. *)

From stdpp Require Import gmap strings list.
From Stdlib Require Import ZArith String Ascii List Bool Lia.
From Stdlib Require Import Reals Lra.
Import ListNotations.

Local Open Scope string_scope.
Local Open Scope Z_scope.

(* ===================================================================== *)
(** * Go values                                                          *)
(* ===================================================================== *)

(** Go's [int] on the 64-bit targets: two's complement, wrapping. *)
Definition int_min : Z := - 2 ^ 63.
Definition int_max : Z := 2 ^ 63 - 1.

Definition wrap64 (z : Z) : Z := (z + 2 ^ 63) mod 2 ^ 64 - 2 ^ 63.

Definition int_add (a b : Z) : Z := wrap64 (a + b).
Definition int_sub (a b : Z) : Z := wrap64 (a - b).

(** [int32], the type of [RepoCount]; [atomic.AddInt32] wraps. *)
Definition wrap32 (z : Z) : Z := (z + 2 ^ 31) mod 2 ^ 32 - 2 ^ 31.

(** Modelled from the spec: [Max] and [Min] are helpers of the package
    that this file only calls; the design document writes them [max] and
    [min] on integers. *)
Definition Max (a b : Z) : Z := if a <? b then b else a.
Definition Min (a b : Z) : Z := if b <? a then b else a.

(** [len(s)] of a Go string (a byte sequence) or slice. *)
Definition len (s : string) : Z := Z.of_nat (String.length s).
Definition len_slice {A} (l : list A) : Z := Z.of_nat (List.length l).

(** A slice expression [l[lo:hi]]: Go panics unless [0 <= lo <= hi <= len]. *)
Definition slice {A} (l : list A) (lo hi : Z) : option (list A) :=
  if (0 <=? lo) && (lo <=? hi) && (hi <=? len_slice l)
  then Some (firstn (Z.to_nat (hi - lo)) (skipn (Z.to_nat lo) l))
  else None.

(** The string slice [s[lo:hi]], with the same bounds check. *)
Definition str_slice (s : string) (lo hi : Z) : option string :=
  if (0 <=? lo) && (lo <=? hi) && (hi <=? len s)
  then Some (substring (Z.to_nat lo) (Z.to_nat (hi - lo)) s)
  else None.

(* ===================================================================== *)
(** * The [strings] package, as far as the file uses it                  *)
(* ===================================================================== *)

Definition newline : ascii := "010"%char.
Definition nl : string := String newline EmptyString.

(** [strings.Split(s, "\n")]: never empty, [Split("", "\n") = [""]]. *)
Fixpoint Split_nl (s : string) : list string :=
  match s with
  | EmptyString => [EmptyString]
  | String c s' =>
      if Ascii.eqb c newline then EmptyString :: Split_nl s'
      else match Split_nl s' with
           | [] => [String c EmptyString]
           | w :: ws => String c w :: ws
           end
  end.

(** [strings.Join(elems, "\n")]. *)
Fixpoint Join_nl (elems : list string) : string :=
  match elems with
  | [] => EmptyString
  | [x] => x
  | x :: xs => x ++ nl ++ Join_nl xs
  end.

(** [strings.Index(s, substr)] as a search from the left: the position of
    the first instance of [substr] in [s]. *)
Fixpoint index_nat (s substr : string) : option nat :=
  if String.prefix substr s then Some 0%nat
  else match s with
       | EmptyString => None
       | String _ s' => option_map S (index_nat s' substr)
       end.

(** The Go result: the index, or [-1] when [substr] is not present. *)
Definition Index (s substr : string) : Z :=
  match index_nat s substr with
  | Some n => Z.of_nat n
  | None => -1
  end.

(** [strings.Count(s, string(c))] for a one-byte [c]. *)
Fixpoint Count (s : string) (c : ascii) : nat :=
  match s with
  | EmptyString => 0%nat
  | String a s' => ((if Ascii.eqb a c then 1 else 0) + Count s' c)%nat
  end.

(** [strings.Fields]: the maximal runs of bytes between white space, in
    the sense of [unicode.IsSpace]: the six ASCII characters and, in
    their UTF-8 encoding, U+0085, U+00A0, U+1680, U+2000 to U+200A,
    U+2028, U+2029, U+202F, U+205F and U+3000. A Go string is a byte
    sequence; a byte that starts no valid encoding counts as a rune of
    its own, which is not white space. *)
Definition is_space (c : ascii) : bool :=
  let n := nat_of_ascii c in
  (Nat.eqb n 32 || Nat.eqb n 9 || Nat.eqb n 10 || Nat.eqb n 11
   || Nat.eqb n 12 || Nat.eqb n 13)%bool.

(** The number of bytes of the white-space rune that [s] starts with,
    and 0 when it starts with none. The encoding of a white-space rune
    begins with a lead byte, so it cannot begin inside the encoding of
    another rune, and the bytes can be scanned one by one. *)
Definition space_width (s : string) : nat :=
  match s with
  | EmptyString => 0%nat
  | String c1 rest =>
      if is_space c1 then 1%nat
      else
        let b1 := nat_of_ascii c1 in
        match rest with
        | String c2 rest' =>
            let b2 := nat_of_ascii c2 in
            if (Nat.eqb b1 194 && (Nat.eqb b2 133 || Nat.eqb b2 160))%bool
            then 2%nat
            else
              match rest' with
              | String c3 _ =>
                  let b3 := nat_of_ascii c3 in
                  if (Nat.eqb b1 225 && Nat.eqb b2 154 && Nat.eqb b3 128
                      || Nat.eqb b1 226 && Nat.eqb b2 128
                         && (Nat.leb 128 b3 && Nat.leb b3 138
                             || Nat.eqb b3 168 || Nat.eqb b3 169
                             || Nat.eqb b3 175)
                      || Nat.eqb b1 226 && Nat.eqb b2 129 && Nat.eqb b3 159
                      || Nat.eqb b1 227 && Nat.eqb b2 128 && Nat.eqb b3 128)%bool
                  then 3%nat
                  else 0%nat
              | EmptyString => 0%nat
              end
        | EmptyString => 0%nat
        end
  end.

(** [cur] is the field read so far; [skip] counts the bytes still to
    pass of a white-space rune of several bytes. *)
Fixpoint Fields_aux (s : string) (cur : string) (skip : nat) : list string :=
  match s with
  | EmptyString => if String.eqb cur "" then [] else [cur]
  | String c s' =>
      match skip with
      | S k => Fields_aux s' cur k
      | O =>
          match space_width s with
          | O => Fields_aux s' (cur ++ String c EmptyString) 0
          | S k =>
              if String.eqb cur "" then Fields_aux s' "" k
              else cur :: Fields_aux s' "" k
          end
      end
  end.

Definition Fields (s : string) : list string := Fields_aux s "" 0.

(* ===================================================================== *)
(** * Data model                                                         *)
(* ===================================================================== *)

(** Go's [error] values, as far as the worker tells them apart. *)
Inductive error : Type :=
  | ErrEmptyRemoteRepository
  | ErrOther (msg : string).

Definition Error (e : error) : string :=
  match e with
  | ErrEmptyRemoteRepository => "remote repository is empty"
  | ErrOther msg => msg
  end.

Definition is_empty_remote (e : error) : bool :=
  match e with
  | ErrEmptyRemoteRepository => true
  | ErrOther _ => false
  end.

(** A compiled pattern: where the leftmost match lies in a text, as an
    offset and a length. [FindString] returns that piece of the text, or
    the empty string when there is no match. *)
Definition Regexp : Type := string -> option (nat * nat).

Definition FindString (re : Regexp) (s : string) : string :=
  match re s with
  | Some (off, n) => substring off n s
  | None => ""
  end.

Record Rule : Type := {
  Reason : string;
  Regex : Regexp;
  Noise : Z
}.

Record Flags : Type := {
  Context : Z;
  SkipDuplicates : bool;
  Both : bool;
  Entropy : bool
}.

Record Commit : Type := { Hash : string }.
Record Change : Type := { ChangeName : string }.
Record Repository : Type := { Path : string }.

(** [NewDiffObject(commit, &diff, &reponame, &filepath)]. *)
Record DiffObject : Type := NewDiffObject {
  DCommit : Commit;
  Diff : string;
  Reponame : string;
  Filepath : string
}.

(** Modelled from the spec: [NewFinding] is pure assembly of the reason,
    the span and the change unit (section 4.4). *)
Record Finding : Type := NewFinding {
  FReason : string;
  Secret : list Z;
  Source : DiffObject
}.

(** What a worker does that others can observe. The format strings of
    the log calls are kept as the source writes them, escape sequences
    unexpanded: the two characters [\n] stand for Go's newline byte.
    [QuitSend] records that [quit <- true] was reached; whether the
    send completes at once or waits for the receiver depends on the
    channel the caller passes in, which this file does not create. *)
Inductive Event : Type :=
  | LogWarn (format : string) (args : list string)
  | LogFail (format : string) (args : list string)
  | LogFinding (f : Finding) (context : string)
  | LogEntropy (run : string) (d : DiffObject)
  | QuitSend
  | WgDone.

(** The read-only part of [Middleware]. *)
Record Middleware : Type := {
  MFlags : Flags;
  Rules : list Rule
}.

(** The part of [Middleware] that workers mutate, with the output made so
    far (oldest event first). *)
Record State : Type := {
  RepoCount : Z;
  Secrets : gset (string * string);
  Log : list Event
}.

Definition emit (e : Event) (st : State) : State :=
  {| RepoCount := RepoCount st; Secrets := Secrets st;
     Log := (Log st ++ [e])%list |}.

(** Modelled from the spec: the Secret Ledger (section 4.3), a set keyed
    on the pair (repository, secret text); [AddSecret] is idempotent. *)
Definition SecretExists (st : State) (repo secret : string) : bool :=
  bool_decide ((repo, secret) ∈ Secrets st).

Definition AddSecret (repo secret : string) (st : State) : State :=
  {| RepoCount := RepoCount st;
     Secrets := {[ (repo, secret) ]} ∪ Secrets st;
     Log := Log st |}.

(** [atomic.AddInt32(m.RepoCount, delta)] and [atomic.LoadInt32]. *)
Definition AddInt32 (delta : Z) (st : State) : State :=
  {| RepoCount := wrap32 (RepoCount st + delta);
     Secrets := Secrets st; Log := Log st |}.

Definition LoadInt32 (st : State) : Z := RepoCount st.

(** A computation on a state that may panic; the panic keeps the state
    reached, since what was reported before it stays reported. *)
Inductive Result (S : Type) : Type :=
  | Ok (s : S)
  | Panic (why : string) (s : S).
Arguments Ok {S} s.
Arguments Panic {S} why s.

Definition bind {S} (r : Result S) (k : S -> Result S) : Result S :=
  match r with
  | Ok s => k s
  | Panic why s => Panic why s
  end.

Definition state_of {S} (r : Result S) : S :=
  match r with
  | Ok s => s
  | Panic _ s => s
  end.

(** A [for ... range] loop whose body may panic. *)
Fixpoint foldM {A S} (body : A -> S -> Result S) (l : list A) (s : S)
  : Result S :=
  match l with
  | [] => Ok s
  | x :: rest => bind (body x s) (foldM body rest)
  end.

(** The pairs (index, element) that [range] yields. *)
Fixpoint enumerate_from {A} (i : Z) (l : list A) : list (Z * A) :=
  match l with
  | [] => []
  | x :: rest => (i, x) :: enumerate_from (i + 1) rest
  end.

Definition enumerate {A} (l : list A) : list (Z * A) := enumerate_from 0 l.

(* ===================================================================== *)
(** * The pattern detector: [AnalyzeRegexDiff]                           *)
(* ===================================================================== *)

(** Line 43: the bounds of the context window. *)
Definition context_bounds (numOfLines lineNum ctx : Z) : Z * Z :=
  (Max 0 (int_sub lineNum ctx),
   Min numOfLines (int_add (int_add lineNum ctx) 1)).

(** Lines 43-49: the context, the span and the text at the span; [None]
    when one of the two slice expressions panics. *)
Definition locate (lines : list string) (lineNum ctx : Z) (found : string)
  : option (string * list Z * string) :=
  let numOfLines := len_slice lines in
  let '(start, end_) := context_bounds numOfLines lineNum ctx in
  match slice lines start end_ with
  | None => None
  | Some context =>
      let newDiff := Join_nl context in
      let secret0 := Index newDiff found in
      let secret := [secret0; secret0 + len found] in
      match str_slice newDiff secret0 (secret0 + len found) with
      | None => None
      | Some secretString => Some (newDiff, secret, secretString)
      end
  end.

(** Lines 50-57: the duplicate check and the report. *)
Definition report (m : Middleware) (d : DiffObject) (rule : Rule)
    (newDiff : string) (secret : list Z) (secretString : string)
    (st : State) : State :=
  if SkipDuplicates (MFlags m)
     && negb (SecretExists st (Reponame d) secretString)
  then emit (LogFinding (NewFinding (Reason rule) secret d) newDiff)
            (AddSecret (Reponame d) secretString st)
  else if negb (SkipDuplicates (MFlags m))
  then emit (LogFinding (NewFinding (Reason rule) secret d) newDiff) st
  else st.

(** The body of the inner loop, for one line and one rule. *)
Definition regex_rule (m : Middleware) (d : DiffObject)
    (lines : list string) (lineNum : Z) (line : string) (rule : Rule)
    (st : State) : Result State :=
  let found := FindString (Regex rule) line in
  if negb (String.eqb found "") then
    match locate lines lineNum (Context (MFlags m)) found with
    | None => Panic "slice bounds out of range" st
    | Some (newDiff, secret, secretString) =>
        Ok (report m d rule newDiff secret secretString st)
    end
  else Ok st.

Definition regex_line (m : Middleware) (d : DiffObject)
    (lines : list string) (il : Z * string) (st : State) : Result State :=
  foldM (regex_rule m d lines (fst il) (snd il)) (Rules m) st.

Definition AnalyzeRegexDiff (m : Middleware) (d : DiffObject) (st : State)
  : Result State :=
  let lines := Split_nl (Diff d) in
  foldM (regex_line m d lines) (enumerate lines) st.

(* ===================================================================== *)
(** * The entropy detector: [AnalyzeEntropyDiff]                         *)
(* ===================================================================== *)

Definition B64chars : string :=
  "ABCDEFGHIJKLMNOPQRSTUVWXYZabcdefghijklmnopqrstuvwxyz0123456789+/=".
Definition Hexchars : string := "1234567890abcdefABCDEF".

Definition b64Threshold : R := 4.5%R.
Definition hexThreshold : R := 3%R.

Definition in_charset (charset : string) (c : ascii) : bool :=
  existsb (Ascii.eqb c) (list_ascii_of_string charset).

(** Modelled from the spec: [FindValidStrings] extracts the maximal
    contiguous runs of characters of the given set and discards the runs
    shorter than the minimum length of 20 (section 4.1). *)
Definition minRunLength : nat := 20.

Fixpoint charset_runs (charset : string) (word cur : string) : list string :=
  match word with
  | EmptyString => [cur]
  | String c w =>
      if in_charset charset c
      then charset_runs charset w (cur ++ String c EmptyString)
      else cur :: charset_runs charset w ""
  end.

Definition FindValidStrings (word charset : string) : list string :=
  List.filter (fun run => Nat.leb minRunLength (String.length run))
              (charset_runs charset word "").

(** Modelled from the spec: the Shannon entropy of a run, "for each
    distinct character, let p be its relative frequency in the run;
    entropy = - sum of p * log2(p)" (section 4.1). *)
Definition log2 (x : R) : R := (ln x / ln 2)%R.

Definition distinct (run : string) : list ascii :=
  nodup ascii_dec (list_ascii_of_string run).

Definition frequency (run : string) (c : ascii) : R :=
  (INR (Count run c) / INR (String.length run))%R.

Definition Rsum {A} (f : A -> R) (l : list A) : R :=
  fold_right (fun x acc => (f x + acc)%R) 0%R l.

Definition ShannonEntropy (run : string) : R :=
  (- Rsum (fun c => frequency run c * log2 (frequency run c)) (distinct run))%R.

(** Modelled from the spec: [PrintEntropyFinding] flags a run when its
    entropy exceeds the threshold it is given; a flagged run becomes a
    hit carrying its text (section 4.1). *)
Definition flag_run (d : DiffObject) (threshold : R) (st : State)
    (run : string) : State :=
  if Rlt_dec threshold (ShannonEntropy run)
  then emit (LogEntropy run d) st
  else st.

Definition PrintEntropyFinding (validStrings : list string)
    (d : DiffObject) (threshold : R) (st : State) : State :=
  fold_left (flag_run d threshold) validStrings st.

(** Lines 25-33. *)
Definition entropy_word (d : DiffObject) (st : State) (word : string)
  : State :=
  let b64strings := FindValidStrings word B64chars in
  let hexstrings := FindValidStrings word Hexchars in
  PrintEntropyFinding hexstrings d hexThreshold
    (PrintEntropyFinding b64strings d b64Threshold st).

Definition AnalyzeEntropyDiff (d : DiffObject) (st : State) : State :=
  fold_left (entropy_word d) (Fields (Diff d)) st.

(* ===================================================================== *)
(** * The worker: [AnalyzeRepo]                                          *)
(* ===================================================================== *)

(** The version-control adapter the worker calls ([OpenRepo],
    [GetCommits], [GetCommitChanges], [GetDiffs]): collaborators outside
    this file, taken as parameters. [OpenRepo] returns a pointer and an
    error, as in Go; the other three are used only when they succeed. *)
Record Adapter : Type := {
  OpenRepo : string -> option Repository * option error;
  GetCommits : option Repository -> string -> list Commit + error;
  GetCommitChanges : Commit -> list Change + error;
  GetDiffs : Change -> string -> (list string * string) + error
}.

(** Lines 104-111: the detectors run on one diff, by mode. *)
Definition analyze_diff (m : Middleware) (d : DiffObject) (st : State)
  : Result State :=
  if Both (MFlags m) then
    bind (AnalyzeRegexDiff m d st) (fun st' => Ok (AnalyzeEntropyDiff d st'))
  else if Entropy (MFlags m) then Ok (AnalyzeEntropyDiff d st)
  else AnalyzeRegexDiff m d st.

(** Lines 96-113: one change of a commit. *)
Definition change_body (a : Adapter) (m : Middleware) (reponame : string)
    (commit : Commit) (change : Change) (st : State) : Result State :=
  match GetDiffs a change reponame with
  | inr err =>
      Ok (emit (LogWarn "Unable to get diffs of %s: %s\n"
                        [ChangeName change; Error err]) st)
  | inl (diffs, filepath) =>
      foldM (fun diff =>
               analyze_diff m (NewDiffObject commit diff reponame filepath))
            diffs st
  end.

(** Lines 90-113: one commit. *)
Definition commit_body (a : Adapter) (m : Middleware) (reponame : string)
    (commit : Commit) (st : State) : Result State :=
  match GetCommitChanges a commit with
  | inr err =>
      Ok (emit (LogWarn "Unable to get commit changes for hash %s: %s\n"
                        [Hash commit; Error err]) st)
  | inl changes => foldM (change_body a m reponame commit) changes st
  end.

(** An index expression [l[i]]: Go panics outside [0, len). *)
Definition at_index {A} (l : list A) (i : Z) : option A :=
  if (0 <=? i) && (i <? len_slice l) then nth_error l (Z.to_nat i) else None.

(** Lines 88-114: [for index := range commits], reading the slice from
    its end. *)
Definition index_body (a : Adapter) (m : Middleware) (reponame : string)
    (commits : list Commit) (index : Z) (st : State) : Result State :=
  match at_index commits (len_slice commits - index - 1) with
  | None => Panic "index out of range" st
  | Some commit => commit_body a m reponame commit st
  end.

Definition traverse (a : Adapter) (m : Middleware) (reponame : string)
    (commits : list Commit) (st : State) : Result State :=
  foldM (index_body a m reponame commits) (map fst (enumerate commits)) st.

(** Lines 72-75 and 115-118: the decrement, then the test of the counter
    and, at zero, the send on [quit]. The send is taken to complete. *)
Definition decrement (st : State) : State := AddInt32 (-1) st.

Definition signal_if_zero (st : State) : State :=
  if LoadInt32 st =? 0 then emit QuitSend st else st.

Definition finish (st : State) : State := signal_if_zero (decrement st).

(** How one turn of the worker's loop ends: back at the [select]
    ([Continue]), out of the function ([Return]), or in a panic. *)
Inductive Outcome : Type :=
  | Continue (st : State)
  | Return (st : State)
  | Panicked (why : string) (st : State).

(** Lines 81-118: from [GetCommits] on. *)
Definition walk (a : Adapter) (m : Middleware) (reponame : string)
    (repo : option Repository) (st : State) : Outcome :=
  match GetCommits a repo reponame with
  | inr err =>
      Return (emit (LogWarn "Unable to fetch commits for %s: %s\n"
                            [reponame; Error err]) st)
  | inl commits =>
      match traverse a m reponame commits st with
      | Panic why st' => Panicked why st'
      | Ok st' => Continue (finish st')
      end
  end.

(** Lines 67-118: the case of a job received on [repoch].
    Modelled from the spec: the logger's [LogWarn] and [LogFail] record
    a message and return (section 6). For [LogFail] the README speaks
    of "fatal warnings"; [job_under] below leaves open whether it
    returns, and the results on an open failure are stated there. *)
Definition job (a : Adapter) (m : Middleware) (reponame : string)
    (st : State) : Outcome :=
  let '(repo, err) := OpenRepo a reponame in
  match err with
  | Some e =>
      if is_empty_remote e then
        Continue (finish (emit (LogWarn "%s is empty\n" [reponame]) st))
      else
        walk a m reponame repo
             (emit (LogFail "Unable to open repo %s: %s\n"
                            [reponame; Error e]) st)
  | None => walk a m reponame repo st
  end.

(** What the [select] receives. *)
Inductive Msg : Type :=
  | Job (reponame : string)
  | Done.

(** Lines 64-124, on the messages the worker receives in order; with none
    left the worker is blocked in the [select]. *)
Fixpoint AnalyzeRepo (a : Adapter) (m : Middleware) (inbox : list Msg)
    (st : State) : Outcome :=
  match inbox with
  | [] => Continue st
  | Job reponame :: rest =>
      match job a m reponame st with
      | Continue st' => AnalyzeRepo a m rest st'
      | out => out
      end
  | Done :: _ => Return (emit WgDone st)
  end.

(* ===================================================================== *)
(** * The completion protocol under interleaving                         *)
(* ===================================================================== *)

(** Several workers share [RepoCount]. Between a worker's
    [atomic.AddInt32] and its [atomic.LoadInt32] other workers may run,
    so each of the two is a step of its own. A worker has a number of
    jobs still to finish and a position: before the decrement of the
    current job, or after it and before the load. *)
Inductive Position : Type := BeforeAdd | BeforeLoad.

Record Worker : Type := {
  JobsLeft : nat;
  At : Position
}.

Record Pool : Type := {
  Shared : State;
  Workers : list Worker
}.

(** One atomic step of worker [w]. *)
Definition worker_step (w : Worker) (st : State) : Worker * State :=
  match At w, JobsLeft w with
  | BeforeAdd, S _ =>
      ({| JobsLeft := JobsLeft w; At := BeforeLoad |}, decrement st)
  | BeforeAdd, O => (w, st)
  | BeforeLoad, n =>
      ({| JobsLeft := Nat.pred n; At := BeforeAdd |}, signal_if_zero st)
  end.

Definition pool_step (p : Pool) (i : nat) : Pool :=
  match Workers p !! i with
  | None => p
  | Some w =>
      let '(w', st') := worker_step w (Shared p) in
      {| Shared := st'; Workers := <[i := w']> (Workers p) |}
  end.

(** A schedule names, step by step, the worker that runs next. *)
Definition run_schedule (schedule : list nat) (p : Pool) : Pool :=
  fold_left pool_step schedule p.

Definition is_quit (e : Event) : bool :=
  match e with QuitSend => true | _ => false end.

Definition quit_signals (st : State) : nat :=
  List.length (List.filter is_quit (Log st)).

(* ===================================================================== *)
(** * Predicates used in the statements                                 *)
(* ===================================================================== *)

(** The log of [s'] is the log of [s] with more events, all in [P]. *)
Definition extends (P : Event -> Prop) (s s' : State) : Prop :=
  exists new, Log s' = (Log s ++ new)%list /\ Forall P new.

(** [sub] stands in [s] at position [n], and at no position before. *)
Definition first_occurrence (s sub : string) (n : Z) : Prop :=
  (exists pre post, s = pre ++ sub ++ post /\ len pre = n)
  /\ forall pre' post', s = pre' ++ sub ++ post' -> n <= len pre'.

(** [e] is the report of a match of a rule on a line of the diff, with
    the context and the span that [locate] computed for it. *)
Definition regex_finding (m : Middleware) (d : DiffObject) (e : Event)
  : Prop :=
  exists rule lineNum line newDiff secret,
    In rule (Rules m)
    /\ In (lineNum, line) (enumerate (Split_nl (Diff d)))
    /\ FindString (Regex rule) line <> ""
    /\ locate (Split_nl (Diff d)) lineNum (Context (MFlags m))
              (FindString (Regex rule) line)
       = Some (newDiff, secret, FindString (Regex rule) line)
    /\ e = LogFinding (NewFinding (Reason rule) secret d) newDiff.

(** What the traversal of a repository has to do, in order: a warning
    for a unit that could not be read, an analysis for a diff. *)
Inductive Item : Type :=
  | Warn (format : string) (args : list string)
  | Analyze (d : DiffObject).

Definition change_items (a : Adapter) (reponame : string) (commit : Commit)
    (change : Change) : list Item :=
  match GetDiffs a change reponame with
  | inr err =>
      [Warn "Unable to get diffs of %s: %s\n" [ChangeName change; Error err]]
  | inl (diffs, filepath) =>
      map (fun diff => Analyze (NewDiffObject commit diff reponame filepath))
          diffs
  end.

Definition commit_items (a : Adapter) (reponame : string) (commit : Commit)
  : list Item :=
  match GetCommitChanges a commit with
  | inr err =>
      [Warn "Unable to get commit changes for hash %s: %s\n"
            [Hash commit; Error err]]
  | inl changes => flat_map (change_items a reponame commit) changes
  end.

Definition schedule (a : Adapter) (reponame : string) (commits : list Commit)
  : list Item :=
  flat_map (commit_items a reponame) (rev commits).

Definition run_item (m : Middleware) (it : Item) (st : State) : Result State :=
  match it with
  | Warn format args => Ok (emit (LogWarn format args) st)
  | Analyze d => analyze_diff m d st
  end.

(** The decrements a worker still owes: one for each job left, less the
    one already made when it stands before the load. *)
Definition pending (w : Worker) : nat :=
  match At w with
  | BeforeAdd => JobsLeft w
  | BeforeLoad => Nat.pred (JobsLeft w)
  end.

Definition pending_total (ws : list Worker) : nat :=
  fold_right (fun w acc => (pending w + acc)%nat) 0%nat ws.

Definition worker_ok (w : Worker) : Prop :=
  At w = BeforeLoad -> (1 <= JobsLeft w)%nat.

(** The counter covers the decrements still owed and fits [int32]. *)
Definition counter_covers (p : Pool) : Prop :=
  Z.of_nat (pending_total (Workers p)) <= RepoCount (Shared p) < 2 ^ 31
  /\ Forall worker_ok (Workers p).

(** The run made of [n] copies of one character. *)
Fixpoint repeat_char (c : ascii) (n : nat) : string :=
  match n with
  | O => EmptyString
  | S k => String c (repeat_char c k)
  end.

(* ===================================================================== *)
(** * Worked examples                                                    *)
(* ===================================================================== *)

(** The rule [^Token: .*$] of the README, as a matcher. *)
Definition token_re : Regexp :=
  fun s => if String.prefix "Token: " s then Some (0%nat, String.length s)
           else None.

Definition token_rule : Rule :=
  {| Reason := "token"; Regex := token_re; Noise := 2 |}.

Definition example_flags (ctx : Z) (skip : bool) : Flags :=
  {| Context := ctx; SkipDuplicates := skip; Both := false; Entropy := false |}.

Definition example_m (ctx : Z) (skip : bool) : Middleware :=
  {| MFlags := example_flags ctx skip; Rules := [token_rule] |}.

Definition example_diff : string := "Token: abcd1234efgh5678ijkl".

Definition example_d : DiffObject :=
  NewDiffObject {| Hash := "c0ffee" |} example_diff "repo" "secrets.txt".

Definition example_st (n : Z) : State :=
  {| RepoCount := n; Secrets := ∅; Log := [] |}.

(** An adapter for the examples: "empty" is an empty remote, "missing"
    cannot be opened, "broken" opens but its commits cannot be listed;
    any other repository has two commits, returned newest first. *)
Definition example_adapter : Adapter :=
  {| OpenRepo := fun reponame =>
       if String.eqb reponame "empty"
       then (None, Some ErrEmptyRemoteRepository)
       else if String.eqb reponame "missing"
       then (None, Some (ErrOther "repository not found"))
       else (Some {| Path := reponame |}, None);
     GetCommits := fun repo reponame =>
       match repo with
       | None => inr (ErrOther "repository is nil")
       | Some r =>
           if String.eqb (Path r) "broken"
           then inr (ErrOther "reference not found")
           else inl [ {| Hash := "b2" |}; {| Hash := "a1" |} ]
       end;
     GetCommitChanges := fun commit =>
       if String.eqb (Hash commit) "a1"
       then inl [ {| ChangeName := "secrets.txt" |} ]
       else inl [];
     GetDiffs := fun change reponame => inl ([example_diff], ChangeName change)
  |}.

(** Two workers, each about to finish its one job. *)
Definition two_workers (count : Z) : Pool :=
  {| Shared := example_st count;
     Workers := [ {| JobsLeft := 1; At := BeforeAdd |};
                  {| JobsLeft := 1; At := BeforeAdd |} ] |}.

(** The report of one line and one rule when nothing is suppressed: the
    Finding of the match, if the rule matches the line. *)
Definition hit_events (m : Middleware) (d : DiffObject) (lines : list string)
    (il : Z * string) (rule : Rule) : list Event :=
  let found := FindString (Regex rule) (snd il) in
  if String.eqb found "" then []
  else match locate lines (fst il) (Context (MFlags m)) found with
       | Some (newDiff, secret, _) =>
           [LogFinding (NewFinding (Reason rule) secret d) newDiff]
       | None => []
       end.

(** All of them for a diff, line by line and, within a line, rule by
    rule. *)
Definition regex_hits (m : Middleware) (d : DiffObject) : list Event :=
  flat_map (fun il => flat_map (hit_events m d (Split_nl (Diff d)) il)
                               (Rules m))
           (enumerate (Split_nl (Diff d))).

Definition is_panic {S} (r : Result S) : bool :=
  match r with
  | Ok _ => false
  | Panic _ _ => true
  end.
(** The pair of every match that was handled without a panic is in the
    ledger afterwards, when skip-duplicates is on. *)
Definition recorded (m : Middleware) (d : DiffObject) (i : Z) (line : string)
    (rule : Rule) (s : State) : Prop :=
  FindString (Regex rule) line <> "" ->
  exists newDiff secret t,
    locate (Split_nl (Diff d)) i (Context (MFlags m))
           (FindString (Regex rule) line) = Some (newDiff, secret, t)
    /\ (Reponame d, t) ∈ Secrets s.

(** The events that the analysis of a repository produces. *)
Definition analysis_event (e : Event) : Prop :=
  match e with
  | LogWarn _ _ | LogFinding _ _ | LogEntropy _ _ => True
  | LogFail _ _ | QuitSend | WgDone => False
  end.

Definition is_wg_done (e : Event) : bool :=
  match e with WgDone => true | _ => false end.

(** How often [wg.Done()] was called. *)
Definition wg_signals (st : State) : nat :=
  List.length (List.filter is_wg_done (Log st)).

(** The state in which a turn of the worker ended. *)
Definition outcome_state (o : Outcome) : State :=
  match o with
  | Continue st => st
  | Return st => st
  | Panicked _ st => st
  end.

Definition is_done (msg : Msg) : bool :=
  match msg with Done => true | Job _ => false end.

(* ===================================================================== *)
(** * The producers: [AnalyzeUser] and [AnalyzeOrg]                      *)
(* ===================================================================== *)

(** The hosting API the producers call ([GetUserRepos], [GetOrgRepos],
    [GetOrgMembers]): collaborators outside this file, taken as
    parameters. *)
Record Hosting : Type := {
  GetUserRepos : string -> list string;
  GetOrgRepos : string -> list string;
  GetOrgMembers : string -> list string
}.

(** What a producer works on: the shared state and the values it has
    sent on [repoch], oldest first. How long a send blocks depends on
    the channel, which the caller makes; the order of the sends and of
    the additions to [RepoCount] does not. *)
Record Producer : Type := {
  PState : State;
  Sent : list string
}.

(** [repoch <- *repo]. *)
Definition send (p : Producer) (repo : string) : Producer :=
  {| PState := PState p; Sent := (Sent p ++ [repo])%list |}.

(** [atomic.AddInt32(m.RepoCount, int32(len(repos)))]. *)
Definition count_repos (repos : list string) (p : Producer) : Producer :=
  {| PState := AddInt32 (wrap32 (len_slice repos)) (PState p);
     Sent := Sent p |}.

(** Lines 128-134. *)
Definition AnalyzeUser (h : Hosting) (p : Producer) (username : string)
  : Producer :=
  let repos := GetUserRepos h username in
  fold_left send repos (count_repos repos p).

(** Lines 138-154; [includeMembers] is [*m.Flags.IncludeMembers]. *)
Definition AnalyzeOrg (h : Hosting) (includeMembers : bool)
    (orgname : string) (p : Producer) : Producer :=
  let members := if includeMembers then GetOrgMembers h orgname else [] in
  let repos := GetOrgRepos h orgname in
  let p1 := fold_left send repos (count_repos repos p) in
  fold_left (AnalyzeUser h) members p1.

(** The jobs of an organisation: its own repositories, then those of
    each member. *)
Definition org_jobs (h : Hosting) (includeMembers : bool) (orgname : string)
  : list string :=
  (GetOrgRepos h orgname
   ++ flat_map (GetUserRepos h)
        (if includeMembers then GetOrgMembers h orgname else []))%list.

(** A hosting API for the examples: an organisation with two
    repositories and one member, who has one repository. *)
Definition example_hosting : Hosting :=
  {| GetUserRepos := fun username =>
       if String.eqb username "alice" then ["alice/dotfiles"] else [];
     GetOrgRepos := fun orgname => ["yar"; "empty"];
     GetOrgMembers := fun orgname => ["alice"] |}.

Definition example_producer : Producer :=
  {| PState := example_st 0; Sent := [] |}.

(** The counter is exactly the number of decrements still owed, and once
    it is zero the completion signal has been sent (beyond the [sent]
    signals of the start) or a worker stands before its load. *)
Definition signal_due (sent : nat) (p : Pool) : Prop :=
  RepoCount (Shared p) = Z.of_nat (pending_total (Workers p))
  /\ RepoCount (Shared p) < 2 ^ 31
  /\ Forall worker_ok (Workers p)
  /\ (sent <= quit_signals (Shared p))%nat
  /\ (RepoCount (Shared p) = 0 ->
      (sent + 1 <= quit_signals (Shared p))%nat
      \/ Exists (fun w => At w = BeforeLoad) (Workers p)).

(** A worker that has finished all its jobs. *)
Definition finished (w : Worker) : Prop :=
  JobsLeft w = 0%nat /\ At w = BeforeAdd.

(** Line 49: the text a Finding points at, [newDiff[secret[0]:secret[1]]]. *)
Definition finding_text (e : Event) : option string :=
  match e with
  | LogFinding f context =>
      match Secret f with
      | [lo; hi] => str_slice context lo hi
      | _ => None
      end
  | _ => None
  end.

(** From [s] to [s'] the ledger grew, and what was reported in between
    are Findings with pairwise different texts, each new to the ledger
    of [s] for the repository and in the ledger of [s']. *)
Definition fresh_reports (repo : string) (s s' : State) : Prop :=
  (Secrets s ⊆ Secrets s')
  /\ exists new,
       Log s' = (Log s ++ new)%list
       /\ NoDup (map finding_text new)
       /\ forall e, In e new ->
            exists t, finding_text e = Some t
                      /\ ((repo, t) ∉ Secrets s)
                      /\ ((repo, t) ∈ Secrets s').

(** What an item of the schedule reports in the pattern-only mode when
    nothing is suppressed. *)
Definition item_events (m : Middleware) (it : Item) : list Event :=
  match it with
  | Warn format args => [LogWarn format args]
  | Analyze d => regex_hits m d
  end.

Definition item_in_range (m : Middleware) (it : Item) : Prop :=
  match it with
  | Warn _ _ => True
  | Analyze d =>
      len_slice (Split_nl (Diff d)) + Context (MFlags m) <= int_max
  end.

(* ===================================================================== *)
(** * The pattern detector, match by match                              *)
(* ===================================================================== *)

(** The lines of index [lo], [lo + 1], ... up to, not including, [hi]. *)
Definition lines_between (lines : list string) (lo hi : Z) : list string :=
  flat_map (fun k => match nth_error lines k with
                     | Some line => [line]
                     | None => []
                     end)
           (seq (Z.to_nat lo) (Z.to_nat (hi - lo))).

(** The context window of the design for a match on line [i] with
    radius [r]: the lines [max(0, i-r)] up to [min(N, i+r+1)]. *)
Definition window (lines : list string) (i r : Z) : list string :=
  lines_between lines (Z.max 0 (i - r))
                (Z.min (len_slice lines) (i + r + 1)).

(** A regex match: a line of the diff with its index, and a rule whose
    pattern finds a non-empty text in that line. *)
Definition Match : Type := Z * string * Rule.

Definition match_index (x : Match) : Z := fst (fst x).
Definition match_line (x : Match) : string := snd (fst x).
Definition match_rule (x : Match) : Rule := snd x.
Definition match_text (x : Match) : string :=
  FindString (Regex (match_rule x)) (match_line x).

(** The matches of a diff, line by line and, within a line, rule by
    rule. *)
Definition regex_matches (m : Middleware) (d : DiffObject) : list Match :=
  flat_map (fun il =>
              flat_map (fun rule =>
                          if String.eqb (FindString (Regex rule) (snd il)) ""
                          then [] else [(fst il, snd il, rule)])
                       (Rules m))
           (enumerate (Split_nl (Diff d))).

(** The rule of the design for the report of one match, given its text
    and its Finding: with skip-duplicates on, a pair (repository, text)
    that is in the ledger suppresses the Finding, and one that is not is
    recorded and the Finding reported; with skip-duplicates off the
    Finding is reported and nothing is recorded. *)
Definition decide_report (skip : bool) (repo : string) (st : State)
    (rep : string * Event) : State :=
  if skip then
    if bool_decide ((repo, fst rep) ∈ Secrets st) then st
    else emit (snd rep) (AddSecret repo (fst rep) st)
  else emit (snd rep) st.

(** The text and the Finding of a match when the context is the window
    of the design and the span starts where [strings.Index] finds the
    text in the joined window. *)
Definition window_report (m : Middleware) (d : DiffObject) (x : Match)
  : string * Event :=
  let newDiff :=
    Join_nl (window (Split_nl (Diff d)) (match_index x) (Context (MFlags m))) in
  let s := Index newDiff (match_text x) in
  (match_text x,
   LogFinding (NewFinding (Reason (match_rule x))
                          [s; s + len (match_text x)] d)
              newDiff).

(** Lines 43-57 for one match. *)
Definition match_step (m : Middleware) (d : DiffObject) (x : Match)
    (st : State) : Result State :=
  match locate (Split_nl (Diff d)) (match_index x) (Context (MFlags m))
               (match_text x) with
  | None => Panic "slice bounds out of range" st
  | Some (newDiff, secret, secretString) =>
      Ok (report m d (match_rule x) newDiff secret secretString st)
  end.

(* ===================================================================== *)
(** * The worker on failures                                            *)
(* ===================================================================== *)

(** The items of a schedule run one after the other, a panic of an
    analysis leaving the state it reached. *)
Definition run_items (m : Middleware) (items : list Item) (st : State)
  : State :=
  fold_left (fun s it => state_of (run_item m it s)) items st.

(** An adapter for the examples of failures: three commits, returned
    newest first, of which the oldest, [c1], cannot list its changes. *)
Definition failing_adapter : Adapter :=
  {| OpenRepo := fun reponame => (Some {| Path := reponame |}, None);
     GetCommits := fun repo reponame =>
       inl [ {| Hash := "c5" |}; {| Hash := "c3" |}; {| Hash := "c1" |} ];
     GetCommitChanges := fun commit =>
       if String.eqb (Hash commit) "c1"
       then inr (ErrOther "object not found")
       else inl [ {| ChangeName := "secrets.txt" |} ];
     GetDiffs := fun change reponame => inl ([example_diff], ChangeName change)
  |}.


(** How the handling of a job ends when a log call may end the process:
    in a turn of the worker, or with the run over. *)
Inductive Ending : Type :=
  | Turn (out : Outcome)
  | ProcessEnded (st : State).

(** Modelled from the spec: the logger's [LogFail] is outside this
    file. Section 6 of the design has the logger receive the message;
    the README names the fail level that of "fatal warnings", and line
    78 neither continues nor returns behind the call. [job_under] is
    lines 67-118 with the question left open: with [failIsFatal] the
    process ends in [LogFail], without it [LogFail] returns, as in
    [job]. *)
Definition job_under (failIsFatal : bool) (a : Adapter) (m : Middleware)
    (reponame : string) (st : State) : Ending :=
  let '(repo, err) := OpenRepo a reponame in
  match err with
  | Some e =>
      if is_empty_remote e then
        Turn (Continue
                (finish (emit (LogWarn "%s is empty\n" [reponame]) st)))
      else if failIsFatal then
        ProcessEnded (emit (LogFail "Unable to open repo %s: %s\n"
                                    [reponame; Error e]) st)
      else
        Turn (walk a m reponame repo
                   (emit (LogFail "Unable to open repo %s: %s\n"
                                  [reponame; Error e]) st))
  | None => Turn (walk a m reponame repo st)
  end.

(** Lines 64-124 on the messages the worker receives in order, as
    [AnalyzeRepo], with [job_under] for the jobs. *)
Fixpoint AnalyzeRepo_under (failIsFatal : bool) (a : Adapter)
    (m : Middleware) (inbox : list Msg) (st : State) : Ending :=
  match inbox with
  | [] => Turn (Continue st)
  | Job reponame :: rest =>
      match job_under failIsFatal a m reponame st with
      | Turn (Continue st') => AnalyzeRepo_under failIsFatal a m rest st'
      | ending => ending
      end
  | Done :: _ => Turn (Return (emit WgDone st))
  end.



(* ===================================================================== *)
(** * Proofs                                                             *)
(* ===================================================================== *)

(** ** Strings *)

#[local] Arguments String.append !s1 s2 : simpl nomatch.

Lemma str_length_app (s t : string) :
  String.length (s ++ t) = (String.length s + String.length t)%nat.
Proof. induction s as [|c s IH]; simpl; [reflexivity | now rewrite IH]. Qed.

Lemma str_app_assoc (s t u : string) : (s ++ t) ++ u = s ++ t ++ u.
Proof. induction s as [|c s IH]; simpl; [reflexivity | now rewrite IH]. Qed.

Lemma str_app_nil_r (s : string) : s ++ "" = s.
Proof. induction s as [|c s IH]; simpl; [reflexivity | now rewrite IH]. Qed.

Lemma prefix_app (sub post : string) : String.prefix sub (sub ++ post) = true.
Proof.
  induction sub as [|c sub IH]; simpl.
  - now destruct post.
  - destruct (ascii_dec c c) as [_|ne]; [exact IH | now elim ne].
Qed.

Lemma prefix_split (sub s : string) :
  String.prefix sub s = true -> exists post, s = sub ++ post.
Proof.
  revert s. induction sub as [|c sub IH]; intros s H.
  - now exists s.
  - destruct s as [|c' s]; simpl in H; [discriminate|].
    destruct (ascii_dec c c') as [->|]; [|discriminate].
    destruct (IH s H) as [post ->]. now exists post.
Qed.

Lemma substring_skip (pre s : string) (n : nat) :
  substring (String.length pre) n (pre ++ s) = substring 0 n s.
Proof. induction pre as [|c pre IH]; simpl; [reflexivity | exact IH]. Qed.

Lemma substring_prefix (sub post : string) :
  substring 0 (String.length sub) (sub ++ post) = sub.
Proof.
  induction sub as [|c sub IH]; simpl.
  - now destruct post.
  - now rewrite IH.
Qed.

Lemma substring_app_mid (pre sub post : string) :
  substring (String.length pre) (String.length sub) (pre ++ sub ++ post) = sub.
Proof. rewrite substring_skip. apply substring_prefix. Qed.

Lemma index_nat_eq (s sub : string) :
  index_nat s sub =
  if String.prefix sub s then Some 0%nat
  else match s with
       | EmptyString => None
       | String _ s' => option_map S (index_nat s' sub)
       end.
Proof. destruct s; reflexivity. Qed.

Lemma index_nat_sound (s sub : string) (n : nat) :
  index_nat s sub = Some n ->
  exists pre post, s = pre ++ sub ++ post /\ String.length pre = n.
Proof.
  revert n. induction s as [|c s IH]; intros n H; rewrite index_nat_eq in H;
    destruct (String.prefix sub _) eqn:P.
  - injection H as <-. destruct (prefix_split _ _ P) as [post E].
    exists "", post. now split.
  - discriminate.
  - injection H as <-. destruct (prefix_split _ _ P) as [post E].
    exists "", post. now split.
  - destruct (index_nat s sub) as [k|] eqn:K; [|discriminate].
    injection H as <-.
    destruct (IH k eq_refl) as (pre & post & -> & L).
    exists (String c pre), post. simpl. now rewrite L.
Qed.

Lemma index_nat_complete (sub post pre : string) :
  exists n, index_nat (pre ++ sub ++ post) sub = Some n
            /\ (n <= String.length pre)%nat.
Proof.
  induction pre as [|c pre IH].
  - exists 0%nat. split; [|simpl; lia].
    rewrite index_nat_eq. simpl. now rewrite prefix_app.
  - destruct IH as (n & Hn & Le). rewrite index_nat_eq.
    destruct (String.prefix sub _).
    + exists 0%nat. split; [reflexivity | lia].
    + simpl. rewrite Hn. exists (S n). split; [reflexivity | simpl; lia].
Qed.

Lemma index_nat_first (s sub : string) (n : nat) :
  index_nat s sub = Some n ->
  forall pre post, s = pre ++ sub ++ post -> (n <= String.length pre)%nat.
Proof.
  intros H pre post ->.
  destruct (index_nat_complete sub post pre) as (k & Hk & Le). congruence.
Qed.


Lemma substring_empty (off n : nat) : substring off n "" = "".
Proof. destruct off, n; reflexivity. Qed.

Lemma substring_0_is_prefix (s : string) (n : nat) :
  exists post, s = substring 0 n s ++ post.
Proof.
  revert n. induction s as [|c s IH]; intros n.
  - exists "". now rewrite substring_empty.
  - destruct n as [|n]; simpl.
    + now exists (String c s).
    + destruct (IH n) as [post E]. exists post. now rewrite <- E.
Qed.

Lemma substring_occurs (s : string) (off n : nat) :
  exists pre post, s = pre ++ substring off n s ++ post.
Proof.
  revert off. induction s as [|c s IH]; intros off.
  - exists "", "". now rewrite substring_empty.
  - destruct off as [|off].
    + destruct (substring_0_is_prefix (String c s) n) as [post E].
      now exists "", post.
    + destruct (IH off) as (pre & post & E).
      exists (String c pre), post. simpl. now rewrite <- E.
Qed.

Lemma FindString_occurs (re : Regexp) (line : string) :
  exists pre post, line = pre ++ FindString re line ++ post.
Proof.
  unfold FindString. destruct (re line) as [[off n]|].
  - apply substring_occurs.
  - now exists "", line.
Qed.

Lemma Join_nl_cons (x : string) (xs : list string) :
  exists post, Join_nl (x :: xs) = x ++ post.
Proof.
  destruct xs as [|y ys].
  - exists "". simpl. now rewrite str_app_nil_r.
  - now exists (nl ++ Join_nl (y :: ys)).
Qed.

Lemma Join_nl_occurs (line : string) (context : list string) :
  In line context -> exists pre post, Join_nl context = pre ++ line ++ post.
Proof.
  induction context as [|x xs IH]; intros H; [contradiction|].
  destruct H as [->|H].
  - destruct (Join_nl_cons line xs) as [post E]. now exists "", post.
  - destruct (IH H) as (pre & post & E).
    destruct xs as [|y ys]; [contradiction|].
    exists (x ++ nl ++ pre), post.
    change (Join_nl (x :: y :: ys)) with (x ++ nl ++ Join_nl (y :: ys)).
    now rewrite E, !str_app_assoc.
Qed.

Lemma occurs_trans (s line found pre post pre' post' : string) :
  s = pre ++ line ++ post -> line = pre' ++ found ++ post' ->
  s = (pre ++ pre') ++ found ++ (post' ++ post).
Proof. intros -> ->. now rewrite !str_app_assoc. Qed.

(** ** Integers *)

Lemma wrap64_small (z : Z) : int_min <= z <= int_max -> wrap64 z = z.
Proof.
  unfold int_min, int_max, wrap64. intros H.
  rewrite Z.mod_small; lia.
Qed.

Lemma Max_spec (a b : Z) : Max a b = Z.max a b.
Proof. unfold Max. destruct (Z.ltb_spec a b); lia. Qed.

Lemma Min_spec (a b : Z) : Min a b = Z.min a b.
Proof. unfold Min. destruct (Z.ltb_spec b a); lia. Qed.

Lemma context_bounds_in_range (N i r : Z) :
  0 <= i < N -> 0 <= r -> i + r + 1 <= int_max ->
  context_bounds N i r = (Z.max 0 (i - r), Z.min N (i + r + 1)).
Proof.
  intros Hi Hr Hov. unfold context_bounds, int_sub, int_add.
  rewrite (wrap64_small (i - r)) by (unfold int_min, int_max in *; lia).
  rewrite (wrap64_small (i + r)) by (unfold int_min, int_max in *; lia).
  rewrite (wrap64_small (i + r + 1)) by (unfold int_min, int_max in *; lia).
  now rewrite Max_spec, Min_spec.
Qed.

(** ** Slices *)

Lemma slice_Some {A} (l : list A) (lo hi : Z) (w : list A) :
  slice l lo hi = Some w ->
  0 <= lo <= hi /\ hi <= len_slice l /\
  w = firstn (Z.to_nat (hi - lo)) (skipn (Z.to_nat lo) l).
Proof.
  unfold slice. intros H.
  destruct (Z.leb_spec 0 lo), (Z.leb_spec lo hi), (Z.leb_spec hi (len_slice l));
    simpl in H; try discriminate.
  injection H as <-. repeat split; lia.
Qed.

Lemma slice_in_range {A} (l : list A) (lo hi : Z) :
  0 <= lo <= hi -> hi <= len_slice l ->
  slice l lo hi = Some (firstn (Z.to_nat (hi - lo)) (skipn (Z.to_nat lo) l)).
Proof.
  intros H1 H2. unfold slice.
  destruct (Z.leb_spec 0 lo), (Z.leb_spec lo hi), (Z.leb_spec hi (len_slice l));
    simpl; try lia. reflexivity.
Qed.

Lemma window_nth {A} (l : list A) (lo n k : nat) :
  (k < n)%nat ->
  nth_error (firstn n (skipn lo l)) k = nth_error l (lo + k).
Proof.
  intros H. rewrite nth_error_firstn.
  destruct (Nat.ltb_spec k n); [|lia]. apply nth_error_skipn.
Qed.

Lemma str_slice_Some (s : string) (lo hi : Z) (t : string) :
  str_slice s lo hi = Some t ->
  0 <= lo <= hi /\ hi <= len s /\
  t = substring (Z.to_nat lo) (Z.to_nat (hi - lo)) s.
Proof.
  unfold str_slice. intros H.
  destruct (Z.leb_spec 0 lo), (Z.leb_spec lo hi), (Z.leb_spec hi (len s));
    simpl in H; try discriminate.
  injection H as <-. repeat split; lia.
Qed.

(** ** [locate] *)

Lemma locate_Some (lines : list string) (i r : Z) (found newDiff : string)
    (secret : list Z) (secretString : string) :
  locate lines i r found = Some (newDiff, secret, secretString) ->
  exists context,
    slice lines (fst (context_bounds (len_slice lines) i r))
                (snd (context_bounds (len_slice lines) i r)) = Some context
    /\ newDiff = Join_nl context
    /\ secret = [Index newDiff found; Index newDiff found + len found]
    /\ str_slice newDiff (Index newDiff found)
                 (Index newDiff found + len found) = Some secretString.
Proof.
  unfold locate. destruct (context_bounds _ i r) as [start end_]. simpl.
  destruct (slice lines start end_) as [context|]; [|discriminate].
  destruct (str_slice _ _ _) as [t|] eqn:E; [|discriminate].
  intros H. injection H as <- <- <-. now exists context.
Qed.

Lemma Index_occurrence (s sub : string) :
  0 <= Index s sub ->
  exists pre post, s = pre ++ sub ++ post /\ Index s sub = len pre
    /\ forall pre' post', s = pre' ++ sub ++ post' -> len pre <= len pre'.
Proof.
  unfold Index. destruct (index_nat s sub) as [n|] eqn:E; [|lia]. intros _.
  destruct (index_nat_sound _ _ _ E) as (pre & post & Hs & L).
  exists pre, post. unfold len. rewrite L. repeat split; [exact Hs|].
  intros pre' post' Hs'. pose proof (index_nat_first _ _ _ E _ _ Hs'). lia.
Qed.

Lemma Index_found (pre sub post : string) :
  0 <= Index (pre ++ sub ++ post) sub <= len pre.
Proof.
  unfold Index. destruct (index_nat_complete sub post pre) as (n & -> & Le).
  unfold len. lia.
Qed.

Lemma str_slice_at_Index (s sub t : string) :
  str_slice s (Index s sub) (Index s sub + len sub) = Some t -> t = sub.
Proof.
  intros H. destruct (str_slice_Some _ _ _ _ H) as ([H0 _] & _ & ->).
  destruct (Index_occurrence _ _ H0) as (pre & post & Hs & -> & _).
  replace (len pre + len sub - len pre) with (len sub) by lia.
  unfold len. rewrite !Nat2Z.id. rewrite Hs at 1. apply substring_app_mid.
Qed.

Lemma str_slice_occurrence (s sub : string) :
  0 <= Index s sub ->
  str_slice s (Index s sub) (Index s sub + len sub) = Some sub.
Proof.
  intros H0. destruct (Index_occurrence _ _ H0) as (pre & post & Hs & E & _).
  unfold str_slice.
  assert (Hlen : len s = len pre + len sub + len post).
  { rewrite Hs at 1. unfold len. rewrite !str_length_app. lia. }
  assert (0 <= len sub /\ 0 <= len post) as [? ?] by (unfold len; lia).
  destruct (Z.leb_spec 0 (Index s sub)); [|lia].
  destruct (Z.leb_spec (Index s sub) (Index s sub + len sub)); [|lia].
  destruct (Z.leb_spec (Index s sub + len sub) (len s)); [|lia].
  simpl. f_equal. rewrite E.
  replace (len pre + len sub - len pre) with (len sub) by lia.
  unfold len. rewrite !Nat2Z.id. rewrite Hs at 1. apply substring_app_mid.
Qed.

Lemma locate_text (lines : list string) (i r : Z) (found newDiff : string)
    (secret : list Z) (secretString : string) :
  locate lines i r found = Some (newDiff, secret, secretString) ->
  secretString = found.
Proof.
  intros H. destruct (locate_Some _ _ _ _ _ _ _ H) as (context & _ & _ & _ & S).
  exact (str_slice_at_Index _ _ _ S).
Qed.

(** With a radius in range the window holds the matching line, so
    [locate] succeeds. *)
Lemma locate_in_range (lines : list string) (i r : Z) (re : Regexp)
    (line : string) :
  0 <= i -> nth_error lines (Z.to_nat i) = Some line ->
  0 <= r -> i + r + 1 <= int_max ->
  exists newDiff secret,
    locate lines i r (FindString re line)
    = Some (newDiff, secret, FindString re line).
Proof.
  intros Hi Hline Hr Hov.
  assert (HN : i < len_slice lines).
  { unfold len_slice.
    assert (nth_error lines (Z.to_nat i) <> None) as Hb by congruence.
    apply nth_error_Some in Hb. lia. }
  unfold locate. rewrite context_bounds_in_range by lia.
  set (start := Z.max 0 (i - r)). set (end_ := Z.min (len_slice lines) (i + r + 1)).
  rewrite slice_in_range by lia.
  set (context := firstn _ _).
  assert (Hin : In line context).
  { apply (nth_error_In _ (Z.to_nat (i - start))). unfold context.
    rewrite window_nth by lia.
    replace (Z.to_nat start + Z.to_nat (i - start))%nat with (Z.to_nat i) by lia.
    exact Hline. }
  destruct (Join_nl_occurs _ _ Hin) as (pre & post & E).
  destruct (FindString_occurs re line) as (pre' & post' & E').
  pose proof (occurs_trans _ _ _ _ _ _ _ E E') as Hocc.
  assert (H0 : 0 <= Index (Join_nl context) (FindString re line)).
  { rewrite Hocc. apply Index_found. }
  rewrite (str_slice_occurrence _ _ H0). eauto.
Qed.

(** ** Logs only grow *)

Lemma extends_refl (P : Event -> Prop) (s : State) : extends P s s.
Proof. exists []. split; [now rewrite app_nil_r | constructor]. Qed.

Lemma extends_trans (P : Event -> Prop) (s1 s2 s3 : State) :
  extends P s1 s2 -> extends P s2 s3 -> extends P s1 s3.
Proof.
  intros (n1 & E1 & F1) (n2 & E2 & F2). exists (n1 ++ n2)%list. split.
  - now rewrite E2, E1, <- app_assoc.
  - apply Forall_app. now split.
Qed.

Lemma extends_emit (P : Event -> Prop) (e : Event) (s : State) :
  P e -> extends P s (emit e s).
Proof. intros H. exists [e]. split; [reflexivity | now constructor]. Qed.

Lemma extends_impl (P Q : Event -> Prop) (s s' : State) :
  (forall e, P e -> Q e) -> extends P s s' -> extends Q s s'.
Proof.
  intros H (new & E & F). exists new. split; [exact E|].
  eapply Forall_impl; eassumption.
Qed.

Lemma foldM_extends {A} (P : Event -> Prop)
    (body : A -> State -> Result State) (l : list A) :
  (forall x s, In x l -> extends P s (state_of (body x s))) ->
  forall s, extends P s (state_of (foldM body l s)).
Proof.
  induction l as [|x rest IH]; intros Hbody s; simpl.
  - apply extends_refl.
  - pose proof (Hbody x s (or_introl eq_refl)) as Hx.
    destruct (body x s) as [s'|why s']; simpl in *; [|exact Hx].
    eapply extends_trans; [exact Hx|].
    apply IH. intros y t Hy. apply Hbody. now right.
Qed.

Lemma report_extends (m : Middleware) (d : DiffObject) (rule : Rule)
    (newDiff : string) (secret : list Z) (secretString : string) (st : State) :
  extends (eq (LogFinding (NewFinding (Reason rule) secret d) newDiff))
          st (report m d rule newDiff secret secretString st).
Proof.
  unfold report.
  destruct (SkipDuplicates (MFlags m)); simpl.
  - destruct (SecretExists st (Reponame d) secretString); simpl.
    + apply extends_refl.
    + exists [LogFinding (NewFinding (Reason rule) secret d) newDiff].
      split; [reflexivity | now constructor].
  - now apply extends_emit.
Qed.

Lemma regex_rule_extends (m : Middleware) (d : DiffObject) (lineNum : Z)
    (line : string) (rule : Rule) (st : State) :
  In rule (Rules m) ->
  In (lineNum, line) (enumerate (Split_nl (Diff d))) ->
  extends (regex_finding m d) st
          (state_of (regex_rule m d (Split_nl (Diff d)) lineNum line rule st)).
Proof.
  intros Hrule Hline. unfold regex_rule.
  destruct (String.eqb_spec (FindString (Regex rule) line) "") as [|Hne];
    simpl; [apply extends_refl|].
  destruct (locate _ _ _ _) as [[[newDiff secret] secretString]|] eqn:L;
    simpl; [|apply extends_refl].
  pose proof (locate_text _ _ _ _ _ _ _ L) as ->.
  eapply extends_impl; [|apply report_extends].
  intros e <-. unfold regex_finding.
  exists rule, lineNum, line, newDiff, secret. auto.
Qed.

Lemma AnalyzeRegexDiff_extends (m : Middleware) (d : DiffObject) (st : State) :
  extends (regex_finding m d) st (state_of (AnalyzeRegexDiff m d st)).
Proof.
  unfold AnalyzeRegexDiff. apply foldM_extends.
  intros [lineNum line] s Hline. unfold regex_line. simpl.
  apply foldM_extends. intros rule t Hrule.
  now apply regex_rule_extends.
Qed.

Lemma in_enumerate_from {A} (l : list A) (k i : Z) (x : A) :
  In (i, x) (enumerate_from k l) ->
  k <= i /\ nth_error l (Z.to_nat (i - k)) = Some x.
Proof.
  revert k. induction l as [|y rest IH]; intros k H; simpl in H;
    [contradiction|].
  destruct H as [H|H].
  - injection H as <- <-. split; [lia|]. now rewrite Z.sub_diag.
  - destruct (IH _ H) as [Hk Hn]. split; [lia|].
    replace (Z.to_nat (i - k)) with (S (Z.to_nat (i - (k + 1)))) by lia.
    exact Hn.
Qed.

Lemma in_enumerate {A} (l : list A) (i : Z) (x : A) :
  In (i, x) (enumerate l) -> 0 <= i /\ nth_error l (Z.to_nat i) = Some x.
Proof.
  intros H. destruct (in_enumerate_from _ _ _ _ H) as [H0 Hn].
  now rewrite Z.sub_0_r in Hn.
Qed.

(** C10. Every Finding that [AnalyzeRegexDiff] reports carries a span at
    which the reported context reads exactly the matched text: slicing
    the context at the span gives the text that the rule matched. *)
Theorem regex_finding_span_reads_match (m : Middleware) (d : DiffObject)
    (st : State) :
  exists new,
    Log (state_of (AnalyzeRegexDiff m d st)) = (Log st ++ new)%list
    /\ forall e, In e new ->
       exists rule line f newDiff s e',
         e = LogFinding f newDiff
         /\ In rule (Rules m) /\ In line (Split_nl (Diff d))
         /\ FindString (Regex rule) line <> ""
         /\ Secret f = [s; e']
         /\ str_slice newDiff s e' = Some (FindString (Regex rule) line).
Proof.
  destruct (AnalyzeRegexDiff_extends m d st) as (new & E & F).
  exists new. split; [exact E|]. intros e He.
  rewrite Forall_forall in F.
  destruct (F e He) as (rule & i & line & newDiff & secret & Hr & Hl & Hne & L & ->).
  destruct (locate_Some _ _ _ _ _ _ _ L) as (context & _ & _ & -> & S).
  destruct (in_enumerate _ _ _ Hl) as [_ Hn].
  exists rule, line. do 4 eexists. split; [reflexivity|]. simpl.
  repeat split; eauto using nth_error_In.
Qed.

(** C5, as stated, fails where [lineNum + Context + 1] leaves Go's int:
    with the radius 2^63 - 1 on a one-line diff the upper bound wraps to
    -2^63, which is not min(N, i+r+1) = 1, and the slice expression
    panics. *)
Lemma context_window_wraps :
  0 <= 0 < len_slice ["Token: x"]
  /\ 0 <= int_max
  /\ context_bounds (len_slice ["Token: x"]) 0 int_max = (0, int_min)
  /\ context_bounds (len_slice ["Token: x"]) 0 int_max
     <> (Z.max 0 (0 - int_max),
         Z.min (len_slice ["Token: x"]) (0 + int_max + 1))
  /\ slice ["Token: x"] 0 int_min = None
  /\ regex_rule (example_m int_max false) example_d ["Token: x"] 0
                "Token: x" token_rule (example_st 1)
     = Panic "slice bounds out of range" (example_st 1).
Proof.
  repeat split; try (vm_compute; congruence).
Qed.

(** ** Loops *)

Lemma foldM_app {A S} (body : A -> S -> Result S) (l1 l2 : list A) (s : S) :
  foldM body (l1 ++ l2)%list s = bind (foldM body l1 s) (foldM body l2).
Proof.
  revert s. induction l1 as [|x l1 IH]; intros s; simpl; [reflexivity|].
  destruct (body x s) as [s'|why s']; simpl; [apply IH | reflexivity].
Qed.

Lemma foldM_ext {A S} (f g : A -> S -> Result S) (l : list A) (s : S) :
  (forall x t, In x l -> f x t = g x t) -> foldM f l s = foldM g l s.
Proof.
  revert s. induction l as [|x l IH]; intros s H; simpl; [reflexivity|].
  rewrite (H x s) by now left.
  destruct (g x s); simpl; [|reflexivity]. apply IH.
  intros y t Hy. apply H. now right.
Qed.

Lemma foldM_flat_map {A B S} (body : B -> S -> Result S) (f : A -> list B)
    (l : list A) (s : S) :
  foldM body (flat_map f l) s = foldM (fun x => foldM body (f x)) l s.
Proof.
  revert s. induction l as [|x l IH]; intros s; simpl; [reflexivity|].
  rewrite foldM_app. destruct (foldM body (f x) s); simpl;
    [apply IH | reflexivity].
Qed.

Lemma foldM_map {A B S} (body : B -> S -> Result S) (f : A -> B)
    (l : list A) (s : S) :
  foldM body (map f l) s = foldM (fun x => body (f x)) l s.
Proof.
  revert s. induction l as [|x l IH]; intros s; simpl; [reflexivity|].
  destruct (body (f x) s); simpl; [apply IH | reflexivity].
Qed.

(** A loop over the indices of [other] that reads [l] through [get]
    visits the elements of [l] in order. *)
Lemma foldM_by_index {A B St} (body : A -> St -> Result St)
    (get : Z -> option A) (l : list A) :
  forall (other : list B) (k : Z) (s : St),
    List.length other = List.length l ->
    (forall j, (j < List.length l)%nat ->
               get (k + Z.of_nat j) = nth_error l j) ->
    foldM (fun i t => match get i with
                      | None => Panic "index out of range" t
                      | Some x => body x t
                      end)
          (map fst (enumerate_from k other)) s
    = foldM body l s.
Proof.
  induction l as [|x l IH]; intros other k s Hlen Hget;
    destruct other as [|y other]; try discriminate; simpl; [reflexivity|].
  pose proof (Hget 0%nat ltac:(simpl; lia)) as H0.
  rewrite Z.add_0_r in H0. rewrite H0. simpl.
  destruct (body x s) as [s'|why s']; simpl; [|reflexivity].
  apply IH; [simpl in Hlen; lia|].
  intros j Hj. specialize (Hget (S j) ltac:(simpl; lia)).
  simpl in Hget. rewrite <- Hget. f_equal. lia.
Qed.

Lemma at_index_from_end {A} (l : list A) (j : nat) :
  (j < List.length l)%nat ->
  at_index l (len_slice l - (0 + Z.of_nat j) - 1) = nth_error (rev l) j.
Proof.
  intros Hj. unfold at_index, len_slice.
  destruct (Z.leb_spec 0 (Z.of_nat (List.length l) - (0 + Z.of_nat j) - 1));
    [|lia].
  destruct (Z.ltb_spec (Z.of_nat (List.length l) - (0 + Z.of_nat j) - 1)
                       (Z.of_nat (List.length l))); [|lia].
  simpl. rewrite nth_error_rev.
  destruct (Nat.ltb_spec j (List.length l)); [|lia]. f_equal. lia.
Qed.

Lemma traverse_rev (a : Adapter) (m : Middleware) (reponame : string)
    (commits : list Commit) (st : State) :
  traverse a m reponame commits st
  = foldM (commit_body a m reponame) (rev commits) st.
Proof.
  unfold traverse, enumerate, index_body.
  apply (foldM_by_index (commit_body a m reponame)
           (fun i => at_index commits (len_slice commits - i - 1))).
  - now rewrite length_rev.
  - intros j Hj. rewrite length_rev in Hj. now apply at_index_from_end.
Qed.

Lemma change_body_items (a : Adapter) (m : Middleware) (reponame : string)
    (commit : Commit) (change : Change) (st : State) :
  change_body a m reponame commit change st
  = foldM (run_item m) (change_items a reponame commit change) st.
Proof.
  unfold change_body, change_items.
  destruct (GetDiffs a change reponame) as [[diffs filepath]|err].
  - now rewrite foldM_map.
  - reflexivity.
Qed.

Lemma commit_body_items (a : Adapter) (m : Middleware) (reponame : string)
    (commit : Commit) (st : State) :
  commit_body a m reponame commit st
  = foldM (run_item m) (commit_items a reponame commit) st.
Proof.
  unfold commit_body, commit_items.
  destruct (GetCommitChanges a commit) as [changes|err]; [|reflexivity].
  rewrite foldM_flat_map. apply foldM_ext.
  intros change t _. apply change_body_items.
Qed.

(** ** The worker *)

Lemma quit_signals_emit_log (format : string) (args : list string)
    (st : State) :
  quit_signals (emit (LogWarn format args) st) = quit_signals st
  /\ quit_signals (emit (LogFail format args) st) = quit_signals st.
Proof.
  unfold quit_signals, emit. simpl. rewrite !List.filter_app. simpl.
  now rewrite !app_nil_r.
Qed.

(** C1, where the code departs from it. When the repository does not
    report an empty remote and [GetCommits] fails, the worker logs a
    warning and returns: [RepoCount] keeps its value, no completion
    signal is sent, and the jobs still to come are not handled by this
    worker. *)
Theorem commit_failure_skips_decrement (a : Adapter) (m : Middleware)
    (reponame : string) (st : State) (repo : option Repository)
    (o : option error) (err : error) :
  OpenRepo a reponame = (repo, o) ->
  (forall e, o = Some e -> is_empty_remote e = false) ->
  GetCommits a repo reponame = inr err ->
  exists st',
    job a m reponame st = Return st'
    /\ RepoCount st' = RepoCount st
    /\ quit_signals st' = quit_signals st
    /\ forall rest, AnalyzeRepo a m (Job reponame :: rest) st = Return st'.
Proof.
  intros Hopen Hne Hcommits.
  assert (Hjob : exists st',
             job a m reponame st = Return st'
             /\ RepoCount st' = RepoCount st
             /\ quit_signals st' = quit_signals st).
  { unfold job. rewrite Hopen. destruct o as [e|].
    - rewrite (Hne e eq_refl). unfold walk. rewrite Hcommits.
      eexists. split; [reflexivity|]. split; [reflexivity|].
      rewrite (proj1 (quit_signals_emit_log _ _ _)).
      apply quit_signals_emit_log.
    - unfold walk. rewrite Hcommits.
      eexists. split; [reflexivity|]. split; [reflexivity|].
      apply quit_signals_emit_log. }
  destruct Hjob as (st' & Hj & Hc & Hq). exists st'.
  repeat split; try assumption. intros rest. simpl. now rewrite Hj.
Qed.

Lemma commit_failure_skips_decrement_witness :
  exists st',
    job example_adapter (example_m 2 false) "broken" (example_st 1)
    = Return st'
    /\ RepoCount st' = 1
    /\ quit_signals st' = 0%nat
    /\ forall rest,
         AnalyzeRepo example_adapter (example_m 2 false)
                     (Job "broken" :: rest) (example_st 1) = Return st'.
Proof.
  apply (commit_failure_skips_decrement example_adapter (example_m 2 false)
           "broken" (example_st 1) (Some {| Path := "broken" |}) None
           (ErrOther "reference not found")).
  - reflexivity.
  - intros e H. discriminate H.
  - reflexivity.
Defined.

(** ** The completion protocol *)

(** C2, where the code departs from it. With two jobs outstanding and
    two workers finishing one job each, the interleaving in which both
    decrement before either loads the counter makes both read zero:
    the completion signal is sent twice. *)
Theorem two_workers_signal_twice :
  quit_signals (Shared (run_schedule [0; 1; 0; 1]%nat (two_workers 2))) = 2%nat
  /\ RepoCount (Shared (run_schedule [0; 1; 0; 1]%nat (two_workers 2))) = 0
  /\ quit_signals (Shared (run_schedule [0; 0; 1; 1]%nat (two_workers 2)))
     = 1%nat.
Proof. repeat split; vm_compute; reflexivity. Qed.

(** Run without interruption, the two steps of a worker are the
    [finish] of the sequential reading. *)
Lemma worker_steps_finish (n : nat) (st : State) :
  let w := {| JobsLeft := S n; At := BeforeAdd |} in
  snd (worker_step (fst (worker_step w st)) (snd (worker_step w st)))
  = finish st.
Proof. reflexivity. Qed.

(** ** Entropy *)

Lemma Rsum_le {A} (f g : A -> R) (l : list A) :
  (forall x, In x l -> (f x <= g x)%R) -> (Rsum f l <= Rsum g l)%R.
Proof.
  induction l as [|x l IH]; intros H; simpl; [lra|].
  pose proof (H x (or_introl eq_refl)).
  assert (Rsum f l <= Rsum g l)%R by (apply IH; intros y Hy; apply H; now right).
  lra.
Qed.

Lemma Rsum_plus {A} (f g : A -> R) (l : list A) :
  Rsum (fun x => (f x + g x)%R) l = (Rsum f l + Rsum g l)%R.
Proof. induction l as [|x l IH]; simpl; [lra | rewrite IH; lra]. Qed.

Lemma Rsum_scal {A} (k : R) (f : A -> R) (l : list A) :
  Rsum (fun x => (f x * k)%R) l = (Rsum f l * k)%R.
Proof. induction l as [|x l IH]; simpl; [lra | rewrite IH; lra]. Qed.

Lemma Rsum_opp {A} (f : A -> R) (l : list A) :
  Rsum (fun x => (- f x)%R) l = (- Rsum f l)%R.
Proof. induction l as [|x l IH]; simpl; [lra | rewrite IH; lra]. Qed.

Lemma Rsum_zero {A} (f : A -> R) (l : list A) :
  (forall x, In x l -> f x = 0%R) -> Rsum f l = 0%R.
Proof.
  induction l as [|x l IH]; intros H; simpl; [reflexivity|].
  rewrite (H x (or_introl eq_refl)), IH; [lra|].
  intros y Hy. apply H. now right.
Qed.

Lemma Rsum_ext {A} (f g : A -> R) (l : list A) :
  (forall x, f x = g x) -> Rsum f l = Rsum g l.
Proof.
  intros H. induction l as [|x l IH]; simpl; [reflexivity|].
  now rewrite H, IH.
Qed.

Lemma Rsum_indicator (a : ascii) (D : list ascii) :
  NoDup D ->
  (Rsum (fun c => INR (if Ascii.eqb a c then 1 else 0)) D <= 1)%R.
Proof.
  induction 1 as [|c D Hnot Hnd IH]; simpl; [lra|].
  destruct (Ascii.eqb_spec a c) as [-> | Hne].
  - rewrite Rsum_zero; [simpl; lra|].
    intros x Hx.
    destruct (Ascii.eqb_spec c x) as [-> | ]; [contradiction | reflexivity].
  - simpl. lra.
Qed.

Lemma Rsum_Count (run : string) (D : list ascii) :
  NoDup D ->
  (Rsum (fun c => INR (Count run c)) D <= INR (String.length run))%R.
Proof.
  intros Hnd. induction run as [|a run IH].
  - rewrite Rsum_zero; [simpl; lra | reflexivity].
  - rewrite (Rsum_ext _ (fun c => (INR (if Ascii.eqb a c then 1 else 0)
                                   + INR (Count run c))%R))
      by (intros c; simpl; apply plus_INR).
    rewrite Rsum_plus. pose proof (Rsum_indicator a D Hnd).
    change (String.length (String a run)) with (S (String.length run)).
    rewrite S_INR. lra.
Qed.

Lemma Count_positive (run : string) (c : ascii) :
  In c (list_ascii_of_string run) -> (1 <= Count run c)%nat.
Proof.
  induction run as [|a run IH]; simpl; [contradiction|].
  intros [-> | H].
  - rewrite Ascii.eqb_refl. lia.
  - specialize (IH H). lia.
Qed.

Lemma ln_2_pos : (0 < ln 2)%R.
Proof. pose proof ln_lt_2. lra. Qed.

Lemma ln_le_mono (x y : R) : (0 < x)%R -> (x <= y)%R -> (ln x <= ln y)%R.
Proof.
  intros Hx [Hlt| ->]; [|lra]. left. now apply ln_increasing.
Qed.

Lemma log2_le_mono (x y : R) : (0 < x)%R -> (x <= y)%R -> (log2 x <= log2 y)%R.
Proof.
  intros Hx Hxy. unfold log2. pose proof ln_2_pos.
  apply Rmult_le_compat_r; [left; now apply Rinv_0_lt_compat|].
  now apply ln_le_mono.
Qed.

Lemma log2_1 : log2 1 = 0%R.
Proof. unfold log2. rewrite ln_1. lra. Qed.

Lemma log2_inv (x : R) : (0 < x)%R -> log2 (/ x) = (- log2 x)%R.
Proof. intros H. unfold log2. rewrite ln_Rinv by exact H. lra. Qed.

(** The entropy of a run is at most the logarithm of its length. *)
Lemma entropy_le_log2_length (run : string) :
  run <> "" ->
  (ShannonEntropy run <= log2 (INR (String.length run)))%R.
Proof.
  intros Hne.
  assert (Hn : (1 <= INR (String.length run))%R).
  { destruct run as [|a run]; [contradiction|].
    change (String.length (String a run)) with (S (String.length run)).
    rewrite S_INR. pose proof (pos_INR (String.length run)). lra. }
  set (n := INR (String.length run)) in *.
  assert (Hlog : (0 <= log2 n)%R).
  { rewrite <- log2_1. apply log2_le_mono; lra. }
  unfold ShannonEntropy. rewrite <- Rsum_opp.
  apply Rle_trans with (Rsum (fun c => (frequency run c * log2 n)%R) (distinct run)).
  - apply Rsum_le. intros c Hc. unfold distinct in Hc.
    apply nodup_In in Hc. apply Count_positive in Hc.
    assert (Hk : (1 <= INR (Count run c))%R) by (apply (le_INR 1); exact Hc).
    unfold frequency. fold n.
    assert (Hf : (/ n <= INR (Count run c) / n)%R).
    { unfold Rdiv. rewrite <- (Rmult_1_l (/ n)) at 1.
      apply Rmult_le_compat_r; [left; apply Rinv_0_lt_compat; lra | exact Hk]. }
    assert (Hpos : (0 < / n)%R) by (apply Rinv_0_lt_compat; lra).
    pose proof (log2_le_mono _ _ Hpos Hf) as Hl.
    rewrite log2_inv in Hl by lra.
    assert (0 <= INR (Count run c) / n)%R by lra.
    nra.
  - rewrite Rsum_scal.
    assert (Hsum : (Rsum (frequency run) (distinct run) <= 1)%R).
    { unfold frequency. fold n. unfold Rdiv. rewrite Rsum_scal.
      pose proof (Rsum_Count run (distinct run) (NoDup_nodup _ _)) as Hc.
      fold n in Hc.
      apply Rmult_le_reg_r with n; [lra|].
      rewrite Rmult_assoc, Rinv_l by lra. lra. }
    nra.
Qed.

Lemma log2_22_below_threshold : (log2 22 < b64Threshold)%R.
Proof.
  unfold log2, b64Threshold. pose proof ln_2_pos as H2.
  apply Rmult_lt_reg_r with (ln 2); [exact H2|].
  unfold Rdiv. rewrite Rmult_assoc, Rinv_l by lra. rewrite Rmult_1_r.
  assert (H : (ln (22 ^ 2) < ln (2 ^ 9))%R).
  { apply ln_increasing; [simpl; lra|]. simpl. lra. }
  rewrite !ln_pow in H by lra. simpl in H. lra.
Qed.

(** No run of at most 22 characters exceeds the base64 threshold. *)
Lemma short_run_below_b64Threshold (run : string) :
  (String.length run <= 22)%nat ->
  ~ (b64Threshold < ShannonEntropy run)%R.
Proof.
  intros Hlen Hflag. destruct run as [|a run].
  - unfold ShannonEntropy, b64Threshold in Hflag. simpl in Hflag. lra.
  - pose proof (entropy_le_log2_length (String a run) ltac:(discriminate)) as Hle.
    assert (Hm : (log2 (INR (String.length (String a run))) <= log2 22)%R).
    { apply log2_le_mono.
      - change (String.length (String a run)) with (S (String.length run)).
        rewrite S_INR. pose proof (pos_INR (String.length run)). lra.
      - replace 22%R with (INR 22) by (simpl; lra). now apply le_INR. }
    pose proof log2_22_below_threshold. lra.
Qed.

Lemma repeat_char_chars (c : ascii) (n : nat) :
  forall x, In x (list_ascii_of_string (repeat_char c n)) -> x = c.
Proof.
  induction n as [|n IH]; simpl; [contradiction|].
  intros x [<- | H]; [reflexivity | now apply IH].
Qed.

Lemma Count_repeat_char (c : ascii) (n : nat) :
  Count (repeat_char c n) c = n /\ String.length (repeat_char c n) = n.
Proof.
  induction n as [|n [IH1 IH2]]; simpl; [now split|].
  rewrite Ascii.eqb_refl, IH1, IH2. now split.
Qed.

(** A run of one repeated character has entropy zero. *)
Lemma entropy_repeat_char (c : ascii) (n : nat) :
  ShannonEntropy (repeat_char c n) = 0%R.
Proof.
  unfold ShannonEntropy. rewrite Rsum_zero; [lra|].
  intros x Hx. unfold distinct in Hx. apply nodup_In in Hx.
  pose proof (repeat_char_chars c n x Hx) as ->.
  destruct n as [|n]; [contradiction|].
  unfold frequency. destruct (Count_repeat_char c (S n)) as [-> ->].
  assert (INR (S n) <> 0)%R by (apply not_0_INR; discriminate).
  unfold Rdiv. rewrite Rinv_r by assumption. rewrite log2_1. lra.
Qed.

Lemma flag_run_cases (d : DiffObject) (threshold : R) (st : State)
    (run : string) :
  ((threshold < ShannonEntropy run)%R ->
   PrintEntropyFinding [run] d threshold st = emit (LogEntropy run d) st)
  /\ (~ (threshold < ShannonEntropy run)%R ->
      PrintEntropyFinding [run] d threshold st = st).
Proof.
  unfold PrintEntropyFinding, flag_run. simpl.
  destruct (Rlt_dec threshold (ShannonEntropy run)); split; intros H;
    try reflexivity; contradiction.
Qed.

Lemma Count_absent (run : string) (c : ascii) :
  ~ In c (list_ascii_of_string run) -> Count run c = 0%nat.
Proof.
  induction run as [|a run IH]; simpl; [reflexivity|]. intros H.
  destruct (Ascii.eqb_spec a c) as [-> | _]; [elim H; now left|].
  apply IH. intros Hin. apply H. now right.
Qed.

Lemma Count_once (run : string) (c : ascii) :
  NoDup (list_ascii_of_string run) -> In c (list_ascii_of_string run) ->
  Count run c = 1%nat.
Proof.
  induction run as [|a run IH]; simpl; [contradiction|].
  intros Hnd Hin. inversion Hnd as [|? ? Hnot Hnd']; subst.
  destruct (Ascii.eqb_spec a c) as [-> | Hne].
  - now rewrite Count_absent.
  - destruct Hin as [-> | Hin]; [contradiction|]. now apply IH.
Qed.

Lemma length_chars (run : string) :
  List.length (list_ascii_of_string run) = String.length run.
Proof. induction run as [|a run IH]; simpl; [reflexivity | now rewrite IH]. Qed.

Lemma Rsum_const {A} (f : A -> R) (k : R) (l : list A) :
  (forall x, In x l -> f x = k) -> Rsum f l = (INR (List.length l) * k)%R.
Proof.
  induction l as [|x l IH]; intros H; [simpl; lra|].
  change (Rsum f (x :: l)) with (f x + Rsum f l)%R.
  change (List.length (x :: l)) with (S (List.length l)).
  rewrite S_INR, (H x (or_introl eq_refl)), IH; [lra|].
  intros y Hy. apply H. now right.
Qed.

(** A run of pairwise distinct characters reaches the bound. *)
Lemma entropy_of_distinct_run (run : string) :
  NoDup (list_ascii_of_string run) -> run <> "" ->
  ShannonEntropy run = log2 (INR (String.length run)).
Proof.
  intros Hnd Hne.
  assert (Hn : (0 < INR (String.length run))%R).
  { destruct run as [|a run]; [contradiction|].
    change (String.length (String a run)) with (S (String.length run)).
    rewrite S_INR. pose proof (pos_INR (String.length run)). lra. }
  unfold ShannonEntropy, distinct. rewrite (nodup_fixed_point _ Hnd).
  rewrite (Rsum_const _ (/ INR (String.length run)
                         * - log2 (INR (String.length run)))%R).
  - rewrite length_chars. field. lra.
  - intros c Hc. unfold frequency. rewrite (Count_once _ _ Hnd Hc).
    simpl INR. unfold Rdiv. rewrite Rmult_1_l.
    now rewrite log2_inv.
Qed.

Lemma log2_23_above_threshold : (b64Threshold < log2 23)%R.
Proof.
  unfold log2, b64Threshold. pose proof ln_2_pos as H2.
  apply Rmult_lt_reg_r with (ln 2); [exact H2|].
  unfold Rdiv. rewrite Rmult_assoc, Rinv_l by lra. rewrite Rmult_1_r.
  assert (H : (ln (2 ^ 9) < ln (23 ^ 2))%R).
  { apply ln_increasing; [simpl; lra|]. simpl. lra. }
  rewrite !ln_pow in H by lra. simpl in H. lra.
Qed.

Lemma run_of_23_distinct_above_threshold :
  (b64Threshold < ShannonEntropy "ABCDEFGHIJKLMNOPQRSTUVW")%R.
Proof.
  rewrite entropy_of_distinct_run.
  - replace (INR (String.length "ABCDEFGHIJKLMNOPQRSTUVW")) with 23%R
      by (simpl; lra).
    exact log2_23_above_threshold.
  - apply (NoDup_count_occ' ascii_dec). intros x Hx.
    repeat (destruct Hx as [<- | Hx]; [vm_compute; reflexivity|]).
    contradiction.
  - discriminate.
Qed.

(** C8 (amended). A run is flagged exactly when its Shannon entropy
    exceeds the threshold it is tested against, 4.5 for the runs of the
    base64 alphabet and 3 for the hexadecimal ones; the entropy of a run
    never exceeds log2 of its length, so no run of 22 or fewer
    characters is flagged against the base64 threshold, while the run
    of the 23 distinct characters [A]..[W] is; and a run of one repeated
    character has entropy 0 and is flagged against neither. *)
Theorem entropy_flagging (d : DiffObject) (st : State) :
  (forall run threshold,
     ((threshold < ShannonEntropy run)%R ->
      PrintEntropyFinding [run] d threshold st = emit (LogEntropy run d) st)
     /\ (~ (threshold < ShannonEntropy run)%R ->
         PrintEntropyFinding [run] d threshold st = st))
  /\ (forall word,
        entropy_word d st word
        = PrintEntropyFinding (FindValidStrings word Hexchars) d 3%R
            (PrintEntropyFinding (FindValidStrings word B64chars) d 4.5%R st))
  /\ (forall run,
        run <> "" ->
        (ShannonEntropy run <= log2 (INR (String.length run)))%R)
  /\ (forall run,
        (String.length run <= 22)%nat ->
        PrintEntropyFinding [run] d b64Threshold st = st)
  /\ PrintEntropyFinding ["ABCDEFGHIJKLMNOPQRSTUVW"] d b64Threshold st
     = emit (LogEntropy "ABCDEFGHIJKLMNOPQRSTUVW" d) st
  /\ (forall c n,
        ShannonEntropy (repeat_char c n) = 0%R
        /\ PrintEntropyFinding [repeat_char c n] d b64Threshold st = st
        /\ PrintEntropyFinding [repeat_char c n] d hexThreshold st = st).
Proof.
  split; [intros run threshold; apply flag_run_cases|].
  split; [reflexivity|].
  split; [exact entropy_le_log2_length|].
  split; [|split].
  - intros run Hlen. apply flag_run_cases.
    now apply short_run_below_b64Threshold.
  - apply flag_run_cases. exact run_of_23_distinct_above_threshold.
  - intros c n. pose proof (entropy_repeat_char c n) as H0.
    split; [exact H0|].
    split; apply flag_run_cases; rewrite H0;
      unfold b64Threshold, hexThreshold; lra.
Qed.

(** C8, as stated, fails on runs of 20 characters: the twenty distinct
    characters [A]..[T] of the base64 alphabet form a run of the minimum
    length that [FindValidStrings] keeps, and it is not flagged. *)
Lemma base64_run_of_20_not_flagged :
  String.length "ABCDEFGHIJKLMNOPQRST" = 20%nat
  /\ forallb (in_charset B64chars)
             (list_ascii_of_string "ABCDEFGHIJKLMNOPQRST") = true
  /\ FindValidStrings "ABCDEFGHIJKLMNOPQRST" B64chars
     = ["ABCDEFGHIJKLMNOPQRST"]
  /\ ~ (b64Threshold < ShannonEntropy "ABCDEFGHIJKLMNOPQRST")%R
  /\ PrintEntropyFinding (FindValidStrings "ABCDEFGHIJKLMNOPQRST" B64chars)
                         example_d b64Threshold (example_st 1)
     = example_st 1.
Proof.
  assert (Hnot : ~ (b64Threshold < ShannonEntropy "ABCDEFGHIJKLMNOPQRST")%R).
  { apply short_run_below_b64Threshold. simpl. lia. }
  split; [reflexivity|]. split; [reflexivity|]. split; [reflexivity|].
  split; [exact Hnot|].
  change (FindValidStrings "ABCDEFGHIJKLMNOPQRST" B64chars)
    with ["ABCDEFGHIJKLMNOPQRST"].
  now apply flag_run_cases.
Qed.

(** ** The counter on the other paths *)

(** The detectors leave [RepoCount] alone. *)
Lemma foldM_RepoCount {A} (body : A -> State -> Result State) (l : list A) :
  (forall x s, RepoCount (state_of (body x s)) = RepoCount s) ->
  forall s, RepoCount (state_of (foldM body l s)) = RepoCount s.
Proof.
  intros Hbody. induction l as [|x l IH]; intros s; simpl; [reflexivity|].
  specialize (Hbody x s).
  destruct (body x s) as [s'|why s']; simpl in *; [|exact Hbody].
  now rewrite IH.
Qed.

Lemma fold_left_RepoCount {A} (f : State -> A -> State) (l : list A) :
  (forall s x, RepoCount (f s x) = RepoCount s) ->
  forall s, RepoCount (fold_left f l s) = RepoCount s.
Proof.
  intros Hf. induction l as [|x l IH]; intros s; simpl; [reflexivity|].
  now rewrite IH.
Qed.

Lemma AnalyzeRegexDiff_RepoCount (m : Middleware) (d : DiffObject) (st : State) :
  RepoCount (state_of (AnalyzeRegexDiff m d st)) = RepoCount st.
Proof.
  unfold AnalyzeRegexDiff. apply foldM_RepoCount. intros il s.
  unfold regex_line. apply foldM_RepoCount. intros rule t.
  unfold regex_rule.
  destruct (negb _); [|reflexivity].
  destruct (locate _ _ _ _) as [[[newDiff secret] secretString]|];
    [|reflexivity].
  simpl. unfold report.
  destruct (SkipDuplicates (MFlags m) && _); [reflexivity|].
  now destruct (negb _).
Qed.

Lemma AnalyzeEntropyDiff_RepoCount (d : DiffObject) (st : State) :
  RepoCount (AnalyzeEntropyDiff d st) = RepoCount st.
Proof.
  unfold AnalyzeEntropyDiff. apply fold_left_RepoCount. intros s word.
  unfold entropy_word, PrintEntropyFinding.
  rewrite !fold_left_RepoCount; [reflexivity | |];
    intros t run; unfold flag_run; now destruct (Rlt_dec _ _).
Qed.

Lemma analyze_diff_RepoCount (m : Middleware) (d : DiffObject) (st : State) :
  RepoCount (state_of (analyze_diff m d st)) = RepoCount st.
Proof.
  unfold analyze_diff. pose proof (AnalyzeRegexDiff_RepoCount m d st) as H.
  destruct (Both (MFlags m)).
  - destruct (AnalyzeRegexDiff m d st) as [s|why s]; simpl in *; [|exact H].
    now rewrite AnalyzeEntropyDiff_RepoCount.
  - destruct (Entropy (MFlags m)); [apply AnalyzeEntropyDiff_RepoCount|exact H].
Qed.

Lemma traverse_RepoCount (a : Adapter) (m : Middleware) (reponame : string)
    (commits : list Commit) (st : State) :
  RepoCount (state_of (traverse a m reponame commits st)) = RepoCount st.
Proof.
  rewrite traverse_rev. apply foldM_RepoCount. intros commit s.
  unfold commit_body. destruct (GetCommitChanges a commit); [|reflexivity].
  apply foldM_RepoCount. intros change t. unfold change_body.
  destruct (GetDiffs a change reponame) as [[diffs filepath]|]; [|reflexivity].
  apply foldM_RepoCount. intros diff u. apply analyze_diff_RepoCount.
Qed.

Lemma finish_RepoCount (st : State) :
  RepoCount (finish st) = wrap32 (RepoCount st - 1).
Proof.
  unfold finish, signal_if_zero, decrement, LoadInt32. simpl.
  now destruct (_ =? 0).
Qed.

(** On the empty-repository path and on the path of a completed
    traversal the worker goes back to the [select] with [RepoCount]
    decremented once. *)
Lemma job_decrements_once (a : Adapter) (m : Middleware) (reponame : string)
    (st : State) (repo : option Repository) (o : option error) :
  OpenRepo a reponame = (repo, o) ->
  (o = Some ErrEmptyRemoteRepository
   \/ exists commits st1,
        (forall e, o = Some e -> is_empty_remote e = false)
        /\ GetCommits a repo reponame = inl commits
        /\ traverse a m reponame commits
             (match o with
              | Some e => emit (LogFail "Unable to open repo %s: %s\n"
                                        [reponame; Error e]) st
              | None => st
              end) = Ok st1) ->
  exists st',
    job a m reponame st = Continue st'
    /\ RepoCount st' = wrap32 (RepoCount st - 1).
Proof.
  intros Hopen [-> | (commits & st1 & Hne & Hc & Ht)]; unfold job;
    rewrite Hopen.
  - simpl. eexists. split; [reflexivity|]. now rewrite finish_RepoCount.
  - pose proof (traverse_RepoCount a m reponame commits
                  (match o with
                   | Some e => emit (LogFail "Unable to open repo %s: %s\n"
                                             [reponame; Error e]) st
                   | None => st
                   end)) as Hrc.
    rewrite Ht in Hrc. simpl in Hrc.
    destruct o as [e|].
    + rewrite (Hne e eq_refl). unfold walk. rewrite Hc, Ht.
      eexists. split; [reflexivity|]. rewrite finish_RepoCount. now rewrite Hrc.
    + unfold walk. rewrite Hc, Ht.
      eexists. split; [reflexivity|]. rewrite finish_RepoCount. now rewrite Hrc.
Qed.

(** The end-to-end run of the design document: one repository whose
    older commit holds the line [Token: abcd1234efgh5678ijkl], the rule
    [^Token: .*$] and radius 0 give one Finding with the whole line as
    match; the counter reaches zero and the completion signal is sent. *)
Example end_to_end :
  AnalyzeRepo example_adapter (example_m 0 true) [Job "yar"; Done]
              (example_st 1)
  = Return
      {| RepoCount := 0;
         Secrets := {[ ("yar", example_diff) ]} ∪ ∅;
         Log := [LogFinding
                   (NewFinding "token" [0; 27]
                      (NewDiffObject {| Hash := "a1" |} example_diff "yar"
                                     "secrets.txt"))
                   example_diff;
                 QuitSend; WgDone] |}.
Proof. vm_compute. reflexivity. Qed.

(** ** The counter under interleaving *)

Lemma wrap32_small (z : Z) : - 2 ^ 31 <= z < 2 ^ 31 -> wrap32 z = z.
Proof. intros H. unfold wrap32. rewrite Z.mod_small; lia. Qed.

Lemma pending_total_insert (ws : list Worker) (i : nat) (w w' : Worker) :
  ws !! i = Some w ->
  (pending_total (<[i := w']> ws) + pending w
   = pending_total ws + pending w')%nat.
Proof.
  revert i. induction ws as [|x ws IH]; intros i H; [discriminate|].
  destruct i as [|i]; simpl in *.
  - injection H as ->. lia.
  - specialize (IH i H). lia.
Qed.

Lemma pending_le_total (ws : list Worker) (i : nat) (w : Worker) :
  ws !! i = Some w -> (pending w <= pending_total ws)%nat.
Proof.
  revert i. induction ws as [|x ws IH]; intros i H; [discriminate|].
  destruct i as [|i]; simpl in *.
  - injection H as ->. lia.
  - specialize (IH i H). lia.
Qed.

Lemma Forall_insert_ok (ws : list Worker) (i : nat) (w' : Worker) :
  Forall worker_ok ws -> worker_ok w' -> Forall worker_ok (<[i := w']> ws).
Proof.
  intros H Hw. revert i. induction H as [|x ws Hx Hws IH]; intros i;
    [constructor|].
  destruct i as [|i]; simpl; constructor; auto.
Qed.

Lemma pool_step_covers (p : Pool) (i : nat) :
  counter_covers p -> counter_covers (pool_step p i).
Proof.
  intros [[Hlo Hhi] Hok]. unfold pool_step.
  destruct (Workers p !! i) as [w|] eqn:Hw; [|now split].
  pose proof (pending_le_total _ _ _ Hw) as Hle.
  assert (Hwok : worker_ok w).
  { rewrite Forall_forall in Hok. apply Hok.
    apply list_elem_of_In. eapply list_elem_of_lookup_2. exact Hw. }
  unfold worker_step. destruct w as [jobs pos].
  unfold worker_ok in Hwok. simpl in *.
  destruct pos; [destruct jobs as [|n]|].
  - unfold counter_covers. simpl.
    pose proof (pending_total_insert _ _ _
                  {| JobsLeft := 0; At := BeforeAdd |} Hw) as E.
    unfold pending in E. simpl in E.
    split; [lia|]. apply Forall_insert_ok; [exact Hok|]. intros H. discriminate.
  - unfold counter_covers. simpl.
    pose proof (pending_total_insert _ _ _
                  {| JobsLeft := S n; At := BeforeLoad |} Hw) as E.
    unfold pending in Hle. unfold pending in E. simpl in E, Hle.
    rewrite wrap32_small by lia. split; [lia|].
    apply Forall_insert_ok; [exact Hok|]. intros _. simpl. lia.
  - unfold counter_covers. simpl.
    pose proof (pending_total_insert _ _ _
                  {| JobsLeft := Nat.pred jobs; At := BeforeAdd |} Hw) as E.
    unfold pending in E. simpl in E.
    assert (RepoCount (signal_if_zero (Shared p)) = RepoCount (Shared p)) as ->.
    { unfold signal_if_zero. now destruct (_ =? 0). }
    split; [lia|]. apply Forall_insert_ok; [exact Hok|]. intros H. discriminate.
Qed.

(** X20. Whatever the interleaving, a counter that starts at least as
    large as the number of decrements owed never goes negative. *)
Lemma counter_never_negative (schedule : list nat) (p : Pool) :
  counter_covers p -> 0 <= RepoCount (Shared (run_schedule schedule p)).
Proof.
  intros H.
  assert (Hc : counter_covers (run_schedule schedule p)).
  { unfold run_schedule. revert p H.
    induction schedule as [|i rest IH]; intros p H; simpl; [exact H|].
    apply IH. now apply pool_step_covers. }
  destruct Hc as [[Hlo _] _]. lia.
Qed.

(** ** More on the pattern detector *)

Lemma foldM_all_ok {A S} (body : A -> S -> Result S) (l : list A) :
  (forall x s, In x l -> exists s', body x s = Ok s') ->
  forall s, exists s', foldM body l s = Ok s'.
Proof.
  induction l as [|x l IH]; intros H s; simpl; [now exists s|].
  destruct (H x s (or_introl eq_refl)) as [s' ->]. simpl.
  apply IH. intros y t Hy. apply H. now right.
Qed.

Lemma foldM_some_panic {A S} (body : A -> S -> Result S) (l : list A) (x : A) :
  In x l -> (forall s, is_panic (body x s) = true) ->
  forall s, is_panic (foldM body l s) = true.
Proof.
  induction l as [|y l IH]; intros Hin Hx s; [contradiction|]. simpl.
  destruct Hin as [-> | Hin].
  - specialize (Hx s). now destruct (body x s).
  - destruct (body y s) as [s'|why s']; simpl; [now apply IH | reflexivity].
Qed.

Lemma foldM_fixed {A S} (body : A -> S -> Result S) (l : list A) (s : S) :
  (forall x, In x l -> body x s = Ok s) -> foldM body l s = Ok s.
Proof.
  induction l as [|x l IH]; intros H; simpl; [reflexivity|].
  rewrite (H x (or_introl eq_refl)). simpl. apply IH.
  intros y Hy. apply H. now right.
Qed.

(** A relation that every turn of a loop respects holds across the loop,
    panic or not. *)
Lemma foldM_rel {A S} (R : S -> S -> Prop) (body : A -> S -> Result S)
    (l : list A) :
  (forall s, R s s) -> (forall s t u, R s t -> R t u -> R s u) ->
  (forall x s, In x l -> R s (state_of (body x s))) ->
  forall s, R s (state_of (foldM body l s)).
Proof.
  intros Hrefl Htrans. induction l as [|x l IH]; intros H s; simpl;
    [apply Hrefl|].
  pose proof (H x s (or_introl eq_refl)) as Hx.
  destruct (body x s) as [s'|why s']; simpl in *; [|exact Hx].
  eapply Htrans; [exact Hx|]. apply IH. intros y t Hy. apply H. now right.
Qed.

Lemma enumerate_line_bound (lines : list string) (i : Z) (line : string) :
  In (i, line) (enumerate lines) ->
  0 <= i < len_slice lines /\ nth_error lines (Z.to_nat i) = Some line.
Proof.
  intros H. destruct (in_enumerate _ _ _ H) as [H0 Hn].
  split; [|exact Hn]. split; [exact H0|].
  assert (nth_error lines (Z.to_nat i) <> None) as Hb by congruence.
  apply nth_error_Some in Hb. unfold len_slice. lia.
Qed.

Lemma nth_error_enumerate_from {A} (l : list A) (j : Z) (n : nat) (x : A) :
  nth_error l n = Some x -> In (j + Z.of_nat n, x) (enumerate_from j l).
Proof.
  revert j n. induction l as [|y l IH]; intros j n Hn; [now destruct n|].
  destruct n as [|n].
  - injection Hn as ->. left. f_equal. lia.
  - right. rewrite Nat2Z.inj_succ.
    replace (j + Z.succ (Z.of_nat n)) with ((j + 1) + Z.of_nat n) by lia.
    apply IH. exact Hn.
Qed.

(** X1. With a radius that is not negative and does not carry the line
    arithmetic past Go's int, [AnalyzeRegexDiff] does not panic. *)
Theorem AnalyzeRegexDiff_in_range_ok (m : Middleware) (d : DiffObject)
    (st : State) :
  0 <= Context (MFlags m) ->
  len_slice (Split_nl (Diff d)) + Context (MFlags m) <= int_max ->
  exists st', AnalyzeRegexDiff m d st = Ok st'.
Proof.
  intros Hr Hov. unfold AnalyzeRegexDiff. apply foldM_all_ok.
  intros [i line] s Hline. unfold regex_line. simpl.
  apply foldM_all_ok. intros rule t _. unfold regex_rule.
  destruct (negb _); [|now exists t].
  destruct (enumerate_line_bound _ _ _ Hline) as [Hi Hn].
  destruct (locate_in_range (Split_nl (Diff d)) i (Context (MFlags m))
              (Regex rule) line) as (newDiff & secret & ->);
    try assumption; try lia.
  eexists. reflexivity.
Qed.

Lemma AnalyzeRegexDiff_in_range_ok_witness :
  exists st', AnalyzeRegexDiff (example_m 2 true) example_d (example_st 1)
              = Ok st'.
Proof.
  apply AnalyzeRegexDiff_in_range_ok.
  - vm_compute. discriminate.
  - vm_compute. discriminate.
Defined.

Lemma locate_negative_radius (lines : list string) (i r : Z) (found : string) :
  0 <= i < len_slice lines -> r < 0 -> int_min <= r -> i - r <= int_max ->
  locate lines i r found = None.
Proof.
  intros Hi Hr Hmin Hov. unfold locate, context_bounds, int_sub, int_add.
  rewrite (wrap64_small (i - r)) by (unfold int_min, int_max in *; lia).
  rewrite (wrap64_small (i + r)) by (unfold int_min, int_max in *; lia).
  rewrite (wrap64_small (i + r + 1)) by (unfold int_min, int_max in *; lia).
  rewrite Max_spec, Min_spec. unfold slice.
  destruct (Z.leb_spec (Z.max 0 (i - r))
                       (Z.min (len_slice lines) (i + r + 1))); [lia|].
  now rewrite andb_false_r.
Qed.

(** X2. With a negative radius the lower bound of the window lies above
    its upper bound, and [AnalyzeRegexDiff] panics as soon as some rule
    matches some line of the diff. *)
Theorem AnalyzeRegexDiff_negative_radius_panics (m : Middleware)
    (d : DiffObject) (st : State) (rule : Rule) (line : string) :
  Context (MFlags m) < 0 -> int_min <= Context (MFlags m) ->
  len_slice (Split_nl (Diff d)) - Context (MFlags m) <= int_max ->
  In rule (Rules m) -> In line (Split_nl (Diff d)) ->
  FindString (Regex rule) line <> "" ->
  is_panic (AnalyzeRegexDiff m d st) = true.
Proof.
  intros Hr Hmin Hov Hrule Hline Hne.
  destruct (In_nth_error _ _ Hline) as [k Hk].
  assert (Hlt : (k < List.length (Split_nl (Diff d)))%nat).
  { apply nth_error_Some. congruence. }
  assert (Hin : In (Z.of_nat k, line) (enumerate (Split_nl (Diff d))))
    by (apply (nth_error_enumerate_from _ 0 k line Hk)).
  unfold AnalyzeRegexDiff.
  apply (foldM_some_panic _ _ (Z.of_nat k, line) Hin). intros s.
  unfold regex_line. simpl.
  apply (foldM_some_panic _ _ rule Hrule). intros t.
  unfold regex_rule.
  destruct (String.eqb_spec (FindString (Regex rule) line) "");
    [contradiction|]. simpl.
  rewrite locate_negative_radius; [reflexivity | | assumption | assumption |].
  - unfold len_slice. lia.
  - unfold len_slice in *. lia.
Qed.

Lemma AnalyzeRegexDiff_negative_radius_panics_witness :
  is_panic (AnalyzeRegexDiff (example_m (-1) false) example_d (example_st 1))
  = true.
Proof.
  apply (AnalyzeRegexDiff_negative_radius_panics (example_m (-1) false)
           example_d (example_st 1) token_rule example_diff).
  - reflexivity.
  - vm_compute. discriminate.
  - vm_compute. discriminate.
  - left. reflexivity.
  - left. reflexivity.
  - vm_compute. discriminate.
Defined.

Lemma foldM_log_exact {A} (body : A -> State -> Result State)
    (out : A -> list Event) (l : list A) :
  (forall x s, In x l ->
     exists s', body x s = Ok s'
                /\ Log s' = (Log s ++ out x)%list
                /\ Secrets s' = Secrets s /\ RepoCount s' = RepoCount s) ->
  forall s, exists s',
    foldM body l s = Ok s'
    /\ Log s' = (Log s ++ flat_map out l)%list
    /\ Secrets s' = Secrets s /\ RepoCount s' = RepoCount s.
Proof.
  induction l as [|x l IH]; intros H s; simpl.
  - exists s. now rewrite app_nil_r.
  - destruct (H x s (or_introl eq_refl)) as (s1 & -> & L1 & S1 & R1). simpl.
    destruct (IH (fun y t Hy => H y t (or_intror Hy)) s1)
      as (s2 & E & L2 & S2 & R2).
    exists s2. rewrite E, L2, L1, S2, S1, R2, R1, <- app_assoc. auto.
Qed.

Lemma AnalyzeRegexDiff_log_exact (m : Middleware)
    (d : DiffObject) (st : State) :
  SkipDuplicates (MFlags m) = false ->
  0 <= Context (MFlags m) ->
  len_slice (Split_nl (Diff d)) + Context (MFlags m) <= int_max ->
  exists st',
    AnalyzeRegexDiff m d st = Ok st'
    /\ Log st' = (Log st ++ regex_hits m d)%list
    /\ Secrets st' = Secrets st
    /\ RepoCount st' = RepoCount st.
Proof.
  intros Hskip Hr Hov. unfold AnalyzeRegexDiff, regex_hits.
  apply foldM_log_exact. intros [i line] s Hline.
  unfold regex_line. apply foldM_log_exact. intros rule t _.
  unfold regex_rule, hit_events. simpl.
  destruct (String.eqb_spec (FindString (Regex rule) line) "") as [E | Hne];
    simpl.
  - exists t. now rewrite app_nil_r.
  - destruct (enumerate_line_bound _ _ _ Hline) as [Hi Hn].
    destruct (locate_in_range (Split_nl (Diff d)) i (Context (MFlags m))
                (Regex rule) line) as (newDiff & secret & ->);
      try assumption; try lia.
    unfold report. rewrite Hskip. simpl.
    eexists. split; [reflexivity|]. auto.
Qed.

(** X3. With skip-duplicates off and the radius in range,
    [AnalyzeRegexDiff] reports exactly one Finding for each pair of a
    line and a rule that matches it, in the order of the lines and,
    within a line, of the rules; it reports nothing else and changes
    neither the ledger nor the counter. *)
Theorem AnalyzeRegexDiff_reports_every_match (m : Middleware)
    (d : DiffObject) (st : State) :
  SkipDuplicates (MFlags m) = false ->
  0 <= Context (MFlags m) ->
  len_slice (Split_nl (Diff d)) + Context (MFlags m) <= int_max ->
  exists st',
    AnalyzeRegexDiff m d st = Ok st'
    /\ Log st' = (Log st ++ regex_hits m d)%list
    /\ Secrets st' = Secrets st
    /\ RepoCount st' = RepoCount st.
Proof.
  intros Hskip Hr Hov. unfold AnalyzeRegexDiff, regex_hits.
  apply foldM_log_exact. intros [i line] s Hline.
  unfold regex_line. apply foldM_log_exact. intros rule t _.
  unfold regex_rule, hit_events. simpl.
  destruct (String.eqb_spec (FindString (Regex rule) line) "") as [E | Hne];
    simpl.
  - exists t. now rewrite app_nil_r.
  - destruct (enumerate_line_bound _ _ _ Hline) as [Hi Hn].
    destruct (locate_in_range (Split_nl (Diff d)) i (Context (MFlags m))
                (Regex rule) line) as (newDiff & secret & ->);
      try assumption; try lia.
    unfold report. rewrite Hskip. simpl.
    eexists. split; [reflexivity|]. auto.
Qed.

Lemma AnalyzeRegexDiff_reports_every_match_witness :
  exists st',
    AnalyzeRegexDiff (example_m 0 false) example_d (example_st 1) = Ok st'
    /\ Log st' = (Log (example_st 1)
                  ++ regex_hits (example_m 0 false) example_d)%list
    /\ Secrets st' = Secrets (example_st 1)
    /\ RepoCount st' = RepoCount (example_st 1).
Proof.
  apply AnalyzeRegexDiff_reports_every_match.
  - reflexivity.
  - vm_compute. discriminate.
  - vm_compute. discriminate.
Defined.

(** ** The ledger *)

Lemma report_Secrets (m : Middleware) (d : DiffObject) (rule : Rule)
    (newDiff : string) (secret : list Z) (t : string) (st : State) :
  Secrets (report m d rule newDiff secret t st)
  = if SkipDuplicates (MFlags m)
    then {[ (Reponame d, t) ]} ∪ Secrets st
    else Secrets st.
Proof.
  unfold report, SecretExists. destruct (SkipDuplicates (MFlags m)); simpl.
  - destruct (decide ((Reponame d, t) ∈ Secrets st)) as [Hin | Hnot].
    + rewrite bool_decide_eq_true_2 by exact Hin. simpl.
      symmetry. apply subseteq_union_1_L. now apply singleton_subseteq_l.
    + rewrite bool_decide_eq_false_2 by exact Hnot. reflexivity.
  - reflexivity.
Qed.

(** X4. [AnalyzeRegexDiff] never removes an entry of the ledger; what it
    adds are pairs under the repository name of the diff; and with
    skip-duplicates off it leaves the ledger as it found it. *)
Theorem AnalyzeRegexDiff_ledger (m : Middleware) (d : DiffObject)
    (st : State) :
  Secrets st ⊆ Secrets (state_of (AnalyzeRegexDiff m d st))
  /\ (forall p, p ∈ Secrets (state_of (AnalyzeRegexDiff m d st)) ->
                p ∈ Secrets st \/ fst p = Reponame d)
  /\ (SkipDuplicates (MFlags m) = false ->
      Secrets (state_of (AnalyzeRegexDiff m d st)) = Secrets st).
Proof.
  set (R := fun s s' : State =>
              Secrets s ⊆ Secrets s'
              /\ (forall p, p ∈ Secrets s' -> p ∈ Secrets s \/ fst p = Reponame d)
              /\ (SkipDuplicates (MFlags m) = false -> Secrets s' = Secrets s)).
  assert (Hrefl : forall s, R s s) by (intros s; unfold R; auto).
  assert (Htrans : forall s t u, R s t -> R t u -> R s u).
  { intros s t u (A1 & B1 & C1) (A2 & B2 & C2). unfold R.
    split; [etransitivity; eassumption|].
    split.
    - intros p Hp. destruct (B2 p Hp) as [Ht | ?]; [|now right]. now apply B1.
    - intros Hoff. rewrite (C2 Hoff). exact (C1 Hoff). }
  change (R st (state_of (AnalyzeRegexDiff m d st))).
  unfold AnalyzeRegexDiff. apply foldM_rel; try assumption.
  intros [i line] s _. unfold regex_line. apply foldM_rel; try assumption.
  intros rule t _. unfold regex_rule.
  destruct (negb _); [|apply Hrefl].
  destruct (locate _ _ _ _) as [[[newDiff secret] secretString]|];
    [|apply Hrefl].
  simpl. unfold R. rewrite report_Secrets.
  destruct (SkipDuplicates (MFlags m)).
  - split; [set_solver|]. split; [|discriminate].
    intros p Hp. apply elem_of_union in Hp as [Hp | Hp]; [|now left].
    apply elem_of_singleton in Hp. subst p. now right.
  - auto.
Qed.


Lemma regex_rule_records (m : Middleware) (d : DiffObject) (i : Z)
    (line : string) (rule : Rule) (s s' : State) :
  SkipDuplicates (MFlags m) = true ->
  regex_rule m d (Split_nl (Diff d)) i line rule s = Ok s' ->
  recorded m d i line rule s'.
Proof.
  intros Hskip H Hne. unfold regex_rule in H.
  destruct (String.eqb_spec (FindString (Regex rule) line) "");
    [contradiction|]. simpl in H.
  destruct (locate _ _ _ _) as [[[newDiff secret] t]|]; [|discriminate].
  injection H as <-. exists newDiff, secret, t. split; [reflexivity|].
  rewrite report_Secrets, Hskip. set_solver.
Qed.

Lemma recorded_mono (m : Middleware) (d : DiffObject) (i : Z) (line : string)
    (rule : Rule) (s s' : State) :
  Secrets s ⊆ Secrets s' -> recorded m d i line rule s ->
  recorded m d i line rule s'.
Proof.
  intros Hsub H Hne. destruct (H Hne) as (newDiff & secret & t & L & Hin).
  exists newDiff, secret, t. split; [exact L | set_solver].
Qed.

Lemma regex_rule_Secrets_mono (m : Middleware) (d : DiffObject)
    (lines : list string) (i : Z) (line : string) (rule : Rule) (s : State) :
  Secrets s ⊆ Secrets (state_of (regex_rule m d lines i line rule s)).
Proof.
  unfold regex_rule. destruct (negb _); [|reflexivity].
  destruct (locate _ _ _ _) as [[[newDiff secret] t]|]; [|reflexivity].
  simpl. rewrite report_Secrets. destruct (SkipDuplicates _); set_solver.
Qed.

Lemma foldM_keeps {A} (Q : State -> Prop)
    (body : A -> State -> Result State) (l : list A) :
  (forall y s s', In y l -> body y s = Ok s' -> Q s -> Q s') ->
  forall t t', foldM body l t = Ok t' -> Q t -> Q t'.
Proof.
  induction l as [|z l IH]; intros Hkeep t t' Ht Hq; simpl in Ht.
  - now injection Ht as <-.
  - destruct (body z t) as [t1|? ?] eqn:Ez; [|discriminate]. simpl in Ht.
    apply (IH (fun y s s' Hy => Hkeep y s s' (or_intror Hy)) t1 t' Ht).
    exact (Hkeep z t t1 (or_introl eq_refl) Ez Hq).
Qed.

(** What a loop establishes for each of its elements, when later turns
    keep what earlier turns established. *)
Lemma foldM_establishes {A} (Q : A -> State -> Prop)
    (body : A -> State -> Result State) (l : list A) :
  (forall x s s', In x l -> body x s = Ok s' -> Q x s') ->
  (forall x y s s', In y l -> body y s = Ok s' -> Q x s -> Q x s') ->
  forall s s', foldM body l s = Ok s' -> forall x, In x l -> Q x s'.
Proof.
  induction l as [|y l IH]; intros Hest Hkeep s s' H x Hx; [contradiction|].
  simpl in H. destruct (body y s) as [s1|why s1] eqn:E; [|discriminate].
  simpl in H. destruct Hx as [-> | Hx].
  - apply (foldM_keeps (Q x) body l
             (fun z t t' Hz => Hkeep x z t t' (or_intror Hz)) s1 s' H).
    exact (Hest x s s1 (or_introl eq_refl) E).
  - exact (IH (fun a b c Ha => Hest a b c (or_intror Ha))
              (fun a b c e Hb => Hkeep a b c e (or_intror Hb)) s1 s' H x Hx).
Qed.

Lemma foldM_ok_mono {A} (body : A -> State -> Result State) (l : list A) :
  (forall x s, Secrets s ⊆ Secrets (state_of (body x s))) ->
  forall s s', foldM body l s = Ok s' -> Secrets s ⊆ Secrets s'.
Proof.
  intros H. induction l as [|x l IH]; intros s s' E; simpl in E.
  - now injection E as <-.
  - pose proof (H x s) as Hx.
    destruct (body x s) as [s1|? ?]; [|discriminate]. simpl in *.
    etransitivity; [exact Hx | now apply IH].
Qed.

(** X5. With skip-duplicates on, a diff that was scanned without a panic
    is silent when scanned again: the second run reports nothing and
    leaves the state as the first run left it. *)
Theorem AnalyzeRegexDiff_rescan_silent (m : Middleware) (d : DiffObject)
    (st st1 : State) :
  SkipDuplicates (MFlags m) = true ->
  AnalyzeRegexDiff m d st = Ok st1 ->
  AnalyzeRegexDiff m d st1 = Ok st1.
Proof.
  intros Hskip Hrun.
  assert (Hrec : forall il, In il (enumerate (Split_nl (Diff d))) ->
                 forall rule, In rule (Rules m) ->
                 recorded m d (fst il) (snd il) rule st1).
  { unfold AnalyzeRegexDiff in Hrun. intros il Hil.
    refine (foldM_establishes
              (fun il s => forall rule, In rule (Rules m) ->
                           recorded m d (fst il) (snd il) rule s)
              (regex_line m d (Split_nl (Diff d)))
              (enumerate (Split_nl (Diff d))) _ _ st st1 Hrun il Hil).
    - intros x s s' _ Hx rule Hrule. unfold regex_line in Hx.
      refine (foldM_establishes
                (fun rule t => recorded m d (fst x) (snd x) rule t)
                (regex_rule m d (Split_nl (Diff d)) (fst x) (snd x))
                (Rules m) _ _ s s' Hx rule Hrule).
      + intros r t t' _. now apply regex_rule_records.
      + intros r r' t t' _ Ht. apply recorded_mono.
        pose proof (regex_rule_Secrets_mono m d (Split_nl (Diff d))
                      (fst x) (snd x) r' t) as Hm.
        now rewrite Ht in Hm.
    - intros x y s s' _ Hy Hq rule Hrule.
      apply (recorded_mono m d _ _ _ s); [|now apply Hq].
      unfold regex_line in Hy.
      refine (foldM_ok_mono _ _ _ s s' Hy).
      intros r t. apply regex_rule_Secrets_mono. }
  unfold AnalyzeRegexDiff. apply foldM_fixed. intros il Hil.
  unfold regex_line. apply foldM_fixed. intros rule Hrule.
  specialize (Hrec il Hil rule Hrule). unfold regex_rule.
  destruct (String.eqb_spec (FindString (Regex rule) (snd il)) "") as [|Hne];
    [reflexivity|]. simpl.
  destruct (Hrec Hne) as (newDiff & secret & t & -> & Hin).
  unfold report, SecretExists. rewrite Hskip.
  now rewrite bool_decide_eq_true_2 by exact Hin.
Qed.

Lemma AnalyzeRegexDiff_rescan_silent_witness :
  AnalyzeRegexDiff (example_m 0 true) example_d
    {| RepoCount := 1; Secrets := {[ ("repo", example_diff) ]} ∪ ∅;
       Log := [LogFinding (NewFinding "token" [0; 27] example_d)
                          example_diff] |}
  = Ok {| RepoCount := 1; Secrets := {[ ("repo", example_diff) ]} ∪ ∅;
          Log := [LogFinding (NewFinding "token" [0; 27] example_d)
                             example_diff] |}.
Proof.
  apply (AnalyzeRegexDiff_rescan_silent (example_m 0 true) example_d
           (example_st 1)).
  - reflexivity.
  - vm_compute. reflexivity.
Defined.

(** ** The context of a Finding *)

Lemma Split_nl_nonempty (s : string) : Split_nl s <> [].
Proof.
  destruct s as [|c s]; simpl; [discriminate|].
  destruct (Ascii.eqb c newline); [discriminate|].
  destruct (Split_nl s); discriminate.
Qed.

Lemma Join_nl_Split_nl (s : string) : Join_nl (Split_nl s) = s.
Proof.
  induction s as [|c s IH]; [reflexivity|]. simpl.
  destruct (Ascii.eqb_spec c newline) as [-> | Hne].
  - pose proof (Split_nl_nonempty s) as Hn.
    destruct (Split_nl s) as [|w ws]; [contradiction|].
    change (Join_nl ("" :: w :: ws)) with ("" ++ nl ++ Join_nl (w :: ws)).
    now rewrite IH.
  - pose proof (Split_nl_nonempty s) as Hn.
    destruct (Split_nl s) as [|w ws]; [contradiction|].
    destruct ws as [|y ys].
    + simpl in *. now rewrite IH.
    + change (Join_nl (String c w :: y :: ys))
        with (String c w ++ nl ++ Join_nl (y :: ys)).
      change (Join_nl (w :: y :: ys)) with (w ++ nl ++ Join_nl (y :: ys)) in IH.
      change (String c w ++ nl ++ Join_nl (y :: ys))
        with (String c (w ++ nl ++ Join_nl (y :: ys))).
      now rewrite IH.
Qed.

Lemma Join_nl_app (l1 l2 : list string) :
  l1 <> [] -> l2 <> [] ->
  Join_nl (l1 ++ l2)%list = Join_nl l1 ++ nl ++ Join_nl l2.
Proof.
  intros H1 H2. induction l1 as [|x l1 IH]; [contradiction|].
  destruct l1 as [|y l1].
  - destruct l2 as [|z l2]; [contradiction|]. reflexivity.
  - change (Join_nl ((x :: y :: l1) ++ l2)%list)
      with (x ++ nl ++ Join_nl ((y :: l1) ++ l2)%list).
    rewrite IH by discriminate.
    change (Join_nl (x :: y :: l1)) with (x ++ nl ++ Join_nl (y :: l1)).
    now rewrite !str_app_assoc.
Qed.

Lemma window_one {A} (l : list A) (n : nat) (x : A) :
  nth_error l n = Some x -> firstn 1 (skipn n l) = [x].
Proof.
  revert n. induction l as [|y l IH]; intros n H; [now destruct n|].
  destruct n as [|n]; simpl in *; [now injection H as -> | now apply IH].
Qed.

Lemma locate_radius_zero (lines : list string) (i : Z) (line found newDiff : string)
    (secret : list Z) (t : string) :
  0 <= i -> i + 1 <= int_max ->
  nth_error lines (Z.to_nat i) = Some line ->
  locate lines i 0 found = Some (newDiff, secret, t) ->
  newDiff = line
  /\ secret = [Index line found; Index line found + len found].
Proof.
  intros Hi Hov Hn L.
  assert (HN : i < len_slice lines).
  { assert (nth_error lines (Z.to_nat i) <> None) as Hb by congruence.
    apply nth_error_Some in Hb. unfold len_slice. lia. }
  destruct (locate_Some _ _ _ _ _ _ _ L) as (context & Hs & -> & -> & _).
  rewrite context_bounds_in_range in Hs by lia. simpl in Hs.
  apply slice_Some in Hs as (_ & _ & ->).
  replace (Z.max 0 (i - 0)) with i by lia.
  replace (Z.min (len_slice lines) (i + 0 + 1) - i) with 1 by lia.
  change (Z.to_nat 1) with 1%nat. rewrite (window_one _ _ _ Hn).
  now split.
Qed.

(** X6. With the radius 0 (the no-context mode) the context reported
    with every Finding is the matching line itself, and the span is the
    place of the first occurrence of the match in that line. *)
Theorem radius_zero_context_is_the_line (m : Middleware) (d : DiffObject)
    (st : State) :
  Context (MFlags m) = 0 ->
  len_slice (Split_nl (Diff d)) <= int_max ->
  exists new,
    Log (state_of (AnalyzeRegexDiff m d st)) = (Log st ++ new)%list
    /\ forall e, In e new ->
       exists rule line,
         In rule (Rules m) /\ In line (Split_nl (Diff d))
         /\ FindString (Regex rule) line <> ""
         /\ e = LogFinding
                  (NewFinding (Reason rule)
                     [Index line (FindString (Regex rule) line);
                      Index line (FindString (Regex rule) line)
                      + len (FindString (Regex rule) line)] d)
                  line.
Proof.
  intros Hr Hov.
  destruct (AnalyzeRegexDiff_extends m d st) as (new & E & F).
  exists new. split; [exact E|]. intros e He.
  rewrite Forall_forall in F.
  destruct (F e He) as (rule & i & line & newDiff & secret & Hrule & Hl & Hne & L & ->).
  destruct (enumerate_line_bound _ _ _ Hl) as [Hi Hn].
  rewrite Hr in L.
  destruct (locate_radius_zero _ _ _ _ _ _ _ (proj1 Hi) ltac:(lia) Hn L)
    as [-> ->].
  exists rule, line. repeat split; eauto using nth_error_In.
Qed.

Lemma radius_zero_context_is_the_line_witness :
  exists new,
    Log (state_of (AnalyzeRegexDiff (example_m 0 false) example_d
                                    (example_st 1)))
    = (Log (example_st 1) ++ new)%list
    /\ forall e, In e new ->
       exists rule line,
         In rule (Rules (example_m 0 false))
         /\ In line (Split_nl (Diff example_d))
         /\ FindString (Regex rule) line <> ""
         /\ e = LogFinding
                  (NewFinding (Reason rule)
                     [Index line (FindString (Regex rule) line);
                      Index line (FindString (Regex rule) line)
                      + len (FindString (Regex rule) line)] example_d)
                  line.
Proof.
  apply radius_zero_context_is_the_line.
  - reflexivity.
  - vm_compute. discriminate.
Defined.

Lemma locate_radius_covers (lines : list string) (i r : Z)
    (found newDiff : string) (secret : list Z) (t : string) :
  0 <= i < len_slice lines -> len_slice lines <= r ->
  i + r + 1 <= int_max ->
  locate lines i r found = Some (newDiff, secret, t) ->
  newDiff = Join_nl lines.
Proof.
  intros Hi Hr Hov L.
  destruct (locate_Some _ _ _ _ _ _ _ L) as (context & Hs & -> & _).
  rewrite context_bounds_in_range in Hs by lia. simpl in Hs.
  apply slice_Some in Hs as (_ & _ & ->).
  replace (Z.max 0 (i - r)) with 0 by lia.
  replace (Z.min (len_slice lines) (i + r + 1) - 0) with (len_slice lines) by lia.
  unfold len_slice. rewrite Nat2Z.id. simpl. now rewrite firstn_all.
Qed.

(** X7. With a radius at least the number of lines of the diff, the
    context reported with every Finding is the whole diff text. *)
Theorem wide_radius_context_is_the_diff (m : Middleware) (d : DiffObject)
    (st : State) :
  len_slice (Split_nl (Diff d)) <= Context (MFlags m) ->
  len_slice (Split_nl (Diff d)) + Context (MFlags m) <= int_max ->
  exists new,
    Log (state_of (AnalyzeRegexDiff m d st)) = (Log st ++ new)%list
    /\ forall e, In e new -> exists f, e = LogFinding f (Diff d).
Proof.
  intros Hr Hov.
  destruct (AnalyzeRegexDiff_extends m d st) as (new & E & F).
  exists new. split; [exact E|]. intros e He.
  rewrite Forall_forall in F.
  destruct (F e He) as (rule & i & line & newDiff & secret & Hrule & Hl & Hne & L & ->).
  destruct (enumerate_line_bound _ _ _ Hl) as [Hi Hn].
  rewrite (locate_radius_covers _ _ _ _ _ _ _ Hi Hr ltac:(lia) L).
  rewrite Join_nl_Split_nl. eauto.
Qed.

Lemma wide_radius_context_is_the_diff_witness :
  exists new,
    Log (state_of (AnalyzeRegexDiff (example_m 2 false) example_d
                                    (example_st 1)))
    = (Log (example_st 1) ++ new)%list
    /\ forall e, In e new -> exists f, e = LogFinding f (Diff example_d).
Proof.
  apply wide_radius_context_is_the_diff.
  - vm_compute. discriminate.
  - vm_compute. discriminate.
Defined.

Lemma skipn_head {A} (l : list A) (k : nat) (x : A) :
  nth_error l k = Some x -> exists rest, skipn k l = x :: rest.
Proof.
  revert k. induction l as [|y l IH]; intros k H; [now destruct k|].
  destruct k as [|k]; simpl in *; [injection H as ->; eauto | now apply IH].
Qed.

(** X8. The span is searched from the start of the context, so when a
    line of the window above the matching line also contains the matched
    text, the span reported for the match lies wholly in the part of the
    context before the matching line. *)
Theorem span_lies_in_earlier_line (lines : list string) (i j r : Z)
    (re : Regexp) (line other pre post : string) :
  0 <= r -> i + r + 1 <= int_max ->
  Z.max 0 (i - r) <= j < i ->
  nth_error lines (Z.to_nat i) = Some line ->
  nth_error lines (Z.to_nat j) = Some other ->
  other = pre ++ FindString re line ++ post ->
  exists before rest s,
    locate lines i r (FindString re line)
    = Some (before ++ nl ++ line ++ rest,
            [s; s + len (FindString re line)], FindString re line)
    /\ s + len (FindString re line) <= len before.
Proof.
  intros Hr Hov Hj Hline Hother Hocc.
  assert (HN : i < len_slice lines).
  { assert (nth_error lines (Z.to_nat i) <> None) as Hb by congruence.
    apply nth_error_Some in Hb. unfold len_slice. lia. }
  destruct (locate_in_range lines i r re line ltac:(lia) Hline Hr Hov)
    as (newDiff & secret & L).
  destruct (locate_Some _ _ _ _ _ _ _ L) as (context & Hs & -> & -> & _).
  rewrite context_bounds_in_range in Hs by lia. simpl in Hs.
  apply slice_Some in Hs as (_ & _ & Hctx).
  set (start := Z.max 0 (i - r)) in *.
  set (end_ := Z.min (len_slice lines) (i + r + 1)) in *.
  set (k := Z.to_nat (i - start)).
  assert (Hk_line : nth_error context k = Some line).
  { rewrite Hctx. unfold k. rewrite window_nth by lia.
    replace (Z.to_nat start + Z.to_nat (i - start))%nat with (Z.to_nat i) by lia.
    exact Hline. }
  assert (Hk_other : nth_error (firstn k context) (Z.to_nat (j - start))
                     = Some other).
  { rewrite nth_error_firstn.
    destruct (Nat.ltb_spec (Z.to_nat (j - start)) k); [|unfold k in *; lia].
    rewrite Hctx. rewrite window_nth by lia.
    replace (Z.to_nat start + Z.to_nat (j - start))%nat with (Z.to_nat j) by lia.
    exact Hother. }
  destruct (skipn_head _ _ _ Hk_line) as [tail Htail].
  destruct (Join_nl_cons line tail) as [rest Hrest].
  assert (Hsplit : Join_nl context
                   = Join_nl (firstn k context) ++ nl ++ line ++ rest).
  { rewrite <- (firstn_skipn k context) at 1.
    rewrite Join_nl_app.
    - now rewrite Htail, Hrest.
    - intros E. rewrite E in Hk_other. now destruct (Z.to_nat (j - start)).
    - rewrite Htail. discriminate. }
  destruct (Join_nl_occurs _ _ (nth_error_In _ _ Hk_other)) as (P & Q & HA).
  assert (Hbefore : Join_nl (firstn k context)
                    = (P ++ pre) ++ FindString re line ++ (post ++ Q)).
  { rewrite HA, Hocc. now rewrite !str_app_assoc. }
  exists (Join_nl (firstn k context)), rest,
         (Index (Join_nl context) (FindString re line)).
  split; [now rewrite L, Hsplit|].
  assert (Hwhole : Join_nl context
                   = (P ++ pre) ++ FindString re line
                     ++ ((post ++ Q) ++ nl ++ line ++ rest)).
  { rewrite Hsplit, Hbefore. now rewrite !str_app_assoc. }
  pose proof (Index_found (P ++ pre) (FindString re line)
                ((post ++ Q) ++ nl ++ line ++ rest)) as Hidx.
  rewrite <- Hwhole in Hidx.
  assert (len (Join_nl (firstn k context))
          = len (P ++ pre) + len (FindString re line) + len (post ++ Q)).
  { rewrite Hbefore. unfold len. rewrite !str_length_app. lia. }
  assert (0 <= len (post ++ Q)) by (unfold len; lia).
  lia.
Qed.

Lemma span_lies_in_earlier_line_witness :
  exists before rest s,
    locate ["Token: x"; "Token: x"] 1 1 (FindString token_re "Token: x")
    = Some (before ++ nl ++ "Token: x" ++ rest,
            [s; s + len (FindString token_re "Token: x")],
            FindString token_re "Token: x")
    /\ s + len (FindString token_re "Token: x") <= len before.
Proof.
  apply (span_lies_in_earlier_line ["Token: x"; "Token: x"] 1 0 1 token_re
           "Token: x" "Token: x" "" "").
  - lia.
  - vm_compute. discriminate.
  - simpl. lia.
  - reflexivity.
  - reflexivity.
  - reflexivity.
Defined.

(** ** What the traversal reports *)

Lemma fold_left_extends {A} (P : Event -> Prop) (f : State -> A -> State)
    (l : list A) :
  (forall s x, extends P s (f s x)) ->
  forall s, extends P s (fold_left f l s).
Proof.
  intros H. induction l as [|x l IH]; intros s; simpl;
    [apply extends_refl|].
  eapply extends_trans; [apply H | apply IH].
Qed.

Lemma AnalyzeEntropyDiff_extends (d : DiffObject) (st : State) :
  extends analysis_event st (AnalyzeEntropyDiff d st).
Proof.
  unfold AnalyzeEntropyDiff. apply fold_left_extends. intros s word.
  unfold entropy_word, PrintEntropyFinding.
  apply extends_trans
    with (fold_left (flag_run d b64Threshold)
                    (FindValidStrings word B64chars) s);
    apply fold_left_extends; intros t run;
    unfold flag_run; destruct (Rlt_dec _ _);
    try apply extends_refl; now apply extends_emit.
Qed.

Lemma analyze_diff_extends (m : Middleware) (d : DiffObject) (st : State) :
  extends analysis_event st (state_of (analyze_diff m d st)).
Proof.
  assert (Hre : forall s, extends analysis_event s
                            (state_of (AnalyzeRegexDiff m d s))).
  { intros s. eapply extends_impl; [|apply AnalyzeRegexDiff_extends].
    intros e (rule & i & line & newDiff & secret & _ & _ & _ & _ & ->).
    exact I. }
  unfold analyze_diff. destruct (Both (MFlags m)).
  - pose proof (Hre st) as H.
    destruct (AnalyzeRegexDiff m d st) as [s|why s]; simpl in *; [|exact H].
    eapply extends_trans; [exact H | apply AnalyzeEntropyDiff_extends].
  - destruct (Entropy (MFlags m)); [apply AnalyzeEntropyDiff_extends | apply Hre].
Qed.

Lemma traverse_extends (a : Adapter) (m : Middleware) (reponame : string)
    (commits : list Commit) (st : State) :
  extends analysis_event st (state_of (traverse a m reponame commits st)).
Proof.
  rewrite traverse_rev. apply foldM_extends. intros commit s _.
  unfold commit_body. destruct (GetCommitChanges a commit);
    [|now apply extends_emit].
  apply foldM_extends. intros change t _. unfold change_body.
  destruct (GetDiffs a change reponame) as [[diffs filepath]|];
    [|now apply extends_emit].
  apply foldM_extends. intros diff u _. apply analyze_diff_extends.
Qed.

(** X9. The traversal of a repository adds only warnings and findings
    to the output and leaves [RepoCount] alone: it logs no failure, sends
    no completion signal and does not call [wg.Done]. *)
Theorem traverse_only_reports (a : Adapter) (m : Middleware)
    (reponame : string) (commits : list Commit) (st : State) :
  RepoCount (state_of (traverse a m reponame commits st)) = RepoCount st
  /\ exists new,
       Log (state_of (traverse a m reponame commits st))
       = (Log st ++ new)%list
       /\ forall e, In e new ->
            (exists format args, e = LogWarn format args)
            \/ (exists f context, e = LogFinding f context)
            \/ (exists run d, e = LogEntropy run d).
Proof.
  split; [apply traverse_RepoCount|].
  destruct (traverse_extends a m reponame commits st) as (new & E & F).
  exists new. split; [exact E|]. intros e He.
  rewrite Forall_forall in F. specialize (F e He).
  destruct e; simpl in F; try contradiction; eauto 6.
Qed.

(** ** The signals of a worker *)

Lemma extends_quit_signals (s s' : State) :
  extends analysis_event s s' -> quit_signals s' = quit_signals s.
Proof.
  intros (new & E & F). unfold quit_signals. rewrite E, List.filter_app.
  rewrite length_app.
  assert (List.filter is_quit new = []) as ->.
  { clear E. induction F as [|e new He _ IH]; [reflexivity|]. simpl.
    destruct e; simpl in *; try contradiction; exact IH. }
  simpl. lia.
Qed.

Lemma extends_wg_signals (s s' : State) :
  extends analysis_event s s' -> wg_signals s' = wg_signals s.
Proof.
  intros (new & E & F). unfold wg_signals. rewrite E, List.filter_app.
  rewrite length_app.
  assert (List.filter is_wg_done new = []) as ->.
  { clear E. induction F as [|e new He _ IH]; [reflexivity|]. simpl.
    destruct e; simpl in *; try contradiction; exact IH. }
  simpl. lia.
Qed.

Lemma finish_quit_signals (st : State) :
  quit_signals (finish st)
  = (quit_signals st
     + if (wrap32 (RepoCount st - 1) =? 0)%Z then 1 else 0)%nat.
Proof.
  unfold finish, signal_if_zero, decrement, LoadInt32, AddInt32. simpl.
  replace (RepoCount st + -1) with (RepoCount st - 1) by lia.
  destruct (wrap32 (RepoCount st - 1) =? 0).
  - unfold quit_signals, emit. simpl. rewrite List.filter_app, length_app.
    reflexivity.
  - unfold quit_signals. simpl. lia.
Qed.

Lemma finish_wg_signals (st : State) : wg_signals (finish st) = wg_signals st.
Proof.
  unfold finish, signal_if_zero, decrement, LoadInt32, AddInt32. simpl.
  destruct (_ =? 0); [|reflexivity].
  unfold wg_signals, emit. simpl. rewrite List.filter_app, length_app.
  simpl. lia.
Qed.

Lemma emit_log_signals (e : Event) (st : State) :
  is_quit e = false -> is_wg_done e = false ->
  quit_signals (emit e st) = quit_signals st
  /\ wg_signals (emit e st) = wg_signals st
  /\ RepoCount (emit e st) = RepoCount st.
Proof.
  intros Hq Hw. unfold quit_signals, wg_signals, emit. simpl.
  rewrite !List.filter_app, !length_app. simpl. rewrite Hq, Hw. simpl.
  repeat split; lia.
Qed.

(** The effect of a job that ends back at the [select]. *)
Lemma job_continue_effect (a : Adapter) (m : Middleware)
    (reponame : string) (st st' : State) :
  - 2 ^ 31 < RepoCount st < 2 ^ 31 ->
  job a m reponame st = Continue st' ->
  RepoCount st' = RepoCount st - 1
  /\ quit_signals st'
     = (quit_signals st + if (RepoCount st =? 1)%Z then 1 else 0)%nat.
Proof.
  intros Hrange Hjob.
  assert (Hfin : forall s,
            RepoCount s = RepoCount st -> quit_signals s = quit_signals st ->
            RepoCount (finish s) = RepoCount st - 1
            /\ quit_signals (finish s)
               = (quit_signals st + if (RepoCount st =? 1)%Z then 1 else 0)%nat).
  { intros s Hc Hq. rewrite finish_RepoCount, finish_quit_signals, Hc, Hq.
    rewrite wrap32_small by lia. split; [reflexivity|].
    destruct (Z.eqb_spec (RepoCount st - 1) 0), (Z.eqb_spec (RepoCount st) 1);
      try lia; reflexivity. }
  assert (Hwalk : forall repo s,
            RepoCount s = RepoCount st -> quit_signals s = quit_signals st ->
            walk a m reponame repo s = Continue st' ->
            RepoCount st' = RepoCount st - 1
            /\ quit_signals st'
               = (quit_signals st + if (RepoCount st =? 1)%Z then 1 else 0)%nat).
  { intros repo s Hc Hq Hw. unfold walk in Hw.
    destruct (GetCommits a repo reponame) as [commits|err]; [|discriminate].
    pose proof (traverse_RepoCount a m reponame commits s) as Hrc.
    pose proof (extends_quit_signals _ _
                  (traverse_extends a m reponame commits s)) as Hqs.
    destruct (traverse a m reponame commits s) as [s1|why s1];
      [|discriminate].
    injection Hw as <-. simpl in *. apply Hfin; congruence. }
  unfold job in Hjob. destruct (OpenRepo a reponame) as [repo [e|]].
  - destruct (is_empty_remote e).
    + injection Hjob as <-.
      destruct (emit_log_signals (LogWarn "%s is empty\n" [reponame]) st
                  eq_refl eq_refl) as (Hq & _ & Hc).
      now apply Hfin.
    + destruct (emit_log_signals
                  (LogFail "Unable to open repo %s: %s\n" [reponame; Error e])
                  st eq_refl eq_refl) as (Hq & _ & Hc).
      exact (Hwalk repo _ Hc Hq Hjob).
  - exact (Hwalk repo st eq_refl eq_refl Hjob).
Qed.

(** X10. A job after which the worker goes back to the [select]
    decrements the counter by one and sends the completion signal
    exactly when that brings the counter to zero. *)
Theorem job_signals_at_zero (a : Adapter) (m : Middleware)
    (reponame : string) (st st' : State) :
  - 2 ^ 31 < RepoCount st < 2 ^ 31 ->
  job a m reponame st = Continue st' ->
  RepoCount st' = RepoCount st - 1
  /\ quit_signals st'
     = (quit_signals st + if (RepoCount st =? 1)%Z then 1 else 0)%nat.
Proof.
  intros Hrange Hjob.
  assert (Hfin : forall s,
            RepoCount s = RepoCount st -> quit_signals s = quit_signals st ->
            RepoCount (finish s) = RepoCount st - 1
            /\ quit_signals (finish s)
               = (quit_signals st + if (RepoCount st =? 1)%Z then 1 else 0)%nat).
  { intros s Hc Hq. rewrite finish_RepoCount, finish_quit_signals, Hc, Hq.
    rewrite wrap32_small by lia. split; [reflexivity|].
    destruct (Z.eqb_spec (RepoCount st - 1) 0), (Z.eqb_spec (RepoCount st) 1);
      try lia; reflexivity. }
  assert (Hwalk : forall repo s,
            RepoCount s = RepoCount st -> quit_signals s = quit_signals st ->
            walk a m reponame repo s = Continue st' ->
            RepoCount st' = RepoCount st - 1
            /\ quit_signals st'
               = (quit_signals st + if (RepoCount st =? 1)%Z then 1 else 0)%nat).
  { intros repo s Hc Hq Hw. unfold walk in Hw.
    destruct (GetCommits a repo reponame) as [commits|err]; [|discriminate].
    pose proof (traverse_RepoCount a m reponame commits s) as Hrc.
    pose proof (extends_quit_signals _ _
                  (traverse_extends a m reponame commits s)) as Hqs.
    destruct (traverse a m reponame commits s) as [s1|why s1];
      [|discriminate].
    injection Hw as <-. simpl in *. apply Hfin; congruence. }
  unfold job in Hjob. destruct (OpenRepo a reponame) as [repo [e|]].
  - destruct (is_empty_remote e).
    + injection Hjob as <-.
      destruct (emit_log_signals (LogWarn "%s is empty\n" [reponame]) st
                  eq_refl eq_refl) as (Hq & _ & Hc).
      now apply Hfin.
    + destruct (emit_log_signals
                  (LogFail "Unable to open repo %s: %s\n" [reponame; Error e])
                  st eq_refl eq_refl) as (Hq & _ & Hc).
      exact (Hwalk repo _ Hc Hq Hjob).
  - exact (Hwalk repo st eq_refl eq_refl Hjob).
Qed.

Lemma job_signals_at_zero_witness :
  RepoCount (finish (emit (LogWarn "%s is empty\n" ["empty"]) (example_st 1)))
  = 1 - 1
  /\ quit_signals
       (finish (emit (LogWarn "%s is empty\n" ["empty"]) (example_st 1)))
     = (0 + 1)%nat.
Proof.
  apply (job_signals_at_zero example_adapter (example_m 2 false) "empty"
           (example_st 1)).
  - simpl. lia.
  - reflexivity.
Defined.

Lemma job_wg_signals (a : Adapter) (m : Middleware) (reponame : string)
    (st : State) :
  wg_signals (outcome_state (job a m reponame st)) = wg_signals st.
Proof.
  assert (Hwalk : forall repo s,
            wg_signals s = wg_signals st ->
            wg_signals (outcome_state (walk a m reponame repo s))
            = wg_signals st).
  { intros repo s Hs. unfold walk.
    destruct (GetCommits a repo reponame) as [commits|err].
    - pose proof (extends_wg_signals _ _
                    (traverse_extends a m reponame commits s)) as Hw.
      destruct (traverse a m reponame commits s) as [s1|why s1]; simpl in *.
      + rewrite finish_wg_signals. congruence.
      + congruence.
    - simpl. destruct (emit_log_signals
                         (LogWarn "Unable to fetch commits for %s: %s\n"
                                  [reponame; Error err]) s eq_refl eq_refl)
        as (_ & Hw & _). congruence. }
  unfold job. destruct (OpenRepo a reponame) as [repo [e|]].
  - destruct (is_empty_remote e).
    + simpl. rewrite finish_wg_signals.
      apply (emit_log_signals (LogWarn "%s is empty\n" [reponame]) st
               eq_refl eq_refl).
    + apply Hwalk.
      apply (emit_log_signals
               (LogFail "Unable to open repo %s: %s\n" [reponame; Error e])
               st eq_refl eq_refl).
  - now apply Hwalk.
Qed.

(** X11. A worker calls [wg.Done] only when it receives [Done], and then
    once: on an inbox without [Done] the wait group is never notified,
    also when the worker has left the function through the failure of
    [GetCommits]. *)
Theorem wg_done_only_on_done (a : Adapter) (m : Middleware)
    (inbox : list Msg) (st : State) :
  (forallb (fun msg => negb (is_done msg)) inbox = true ->
   wg_signals (outcome_state (AnalyzeRepo a m inbox st)) = wg_signals st)
  /\ (wg_signals (outcome_state (AnalyzeRepo a m inbox st))
      <= wg_signals st + 1)%nat.
Proof.
  revert st. induction inbox as [|msg rest IH]; intros st.
  - simpl. split; [reflexivity | lia].
  - destruct msg as [reponame|].
    + pose proof (job_wg_signals a m reponame st) as Hj. simpl.
      destruct (job a m reponame st) as [s|s|why s]; simpl in *.
      * destruct (IH s) as [IH1 IH2]. split.
        -- intros H. now rewrite IH1.
        -- lia.
      * split; [intros _; exact Hj | lia].
      * split; [intros _; exact Hj | lia].
    + simpl. split; [discriminate|].
      unfold wg_signals, emit. simpl. rewrite List.filter_app, length_app.
      simpl. lia.
Qed.

(** ** The producers *)

Lemma fold_left_send (repos : list string) (p : Producer) :
  fold_left send repos p
  = {| PState := PState p; Sent := (Sent p ++ repos)%list |}.
Proof.
  revert p. induction repos as [|r repos IH]; intros p; simpl.
  - rewrite app_nil_r. now destruct p.
  - rewrite IH. simpl. now rewrite <- app_assoc.
Qed.

Lemma count_and_send (repos : list string) (p : Producer) :
  0 <= RepoCount (PState p) ->
  RepoCount (PState p) + len_slice repos < 2 ^ 31 ->
  fold_left send repos (count_repos repos p)
  = {| PState := {| RepoCount := RepoCount (PState p) + len_slice repos;
                    Secrets := Secrets (PState p);
                    Log := Log (PState p) |};
       Sent := (Sent p ++ repos)%list |}.
Proof.
  intros H0 Hov. rewrite fold_left_send. unfold count_repos, AddInt32. simpl.
  assert (0 <= len_slice repos) by (unfold len_slice; lia).
  rewrite (wrap32_small (len_slice repos)) by lia.
  now rewrite wrap32_small by lia.
Qed.

Lemma AnalyzeUser_effect (h : Hosting) (p : Producer)
    (username : string) :
  0 <= RepoCount (PState p) ->
  RepoCount (PState p) + len_slice (GetUserRepos h username) < 2 ^ 31 ->
  AnalyzeUser h p username
  = {| PState := {| RepoCount := RepoCount (PState p)
                                 + len_slice (GetUserRepos h username);
                    Secrets := Secrets (PState p);
                    Log := Log (PState p) |};
       Sent := (Sent p ++ GetUserRepos h username)%list |}.
Proof. intros H0 Hov. unfold AnalyzeUser. now apply count_and_send. Qed.

(** X13. [AnalyzeUser] sends the user's repositories in the order the
    hosting API lists them and raises [RepoCount] by their number (as
    long as the sum fits [int32]); it changes nothing else. *)
Theorem AnalyzeUser_counts_what_it_sends (h : Hosting) (p : Producer)
    (username : string) :
  0 <= RepoCount (PState p) ->
  RepoCount (PState p) + len_slice (GetUserRepos h username) < 2 ^ 31 ->
  AnalyzeUser h p username
  = {| PState := {| RepoCount := RepoCount (PState p)
                                 + len_slice (GetUserRepos h username);
                    Secrets := Secrets (PState p);
                    Log := Log (PState p) |};
       Sent := (Sent p ++ GetUserRepos h username)%list |}.
Proof. intros H0 Hov. unfold AnalyzeUser. now apply count_and_send. Qed.

Lemma AnalyzeUser_counts_what_it_sends_witness :
  AnalyzeUser example_hosting example_producer "alice"
  = {| PState := {| RepoCount := 0 + len_slice ["alice/dotfiles"];
                    Secrets := ∅; Log := [] |};
       Sent := ([] ++ ["alice/dotfiles"])%list |}.
Proof.
  apply (AnalyzeUser_counts_what_it_sends example_hosting example_producer
           "alice").
  - simpl. lia.
  - vm_compute. reflexivity.
Defined.

Lemma fold_AnalyzeUser (h : Hosting) (members : list string) (p : Producer) :
  0 <= RepoCount (PState p) ->
  RepoCount (PState p) + len_slice (flat_map (GetUserRepos h) members)
  < 2 ^ 31 ->
  fold_left (AnalyzeUser h) members p
  = {| PState := {| RepoCount := RepoCount (PState p)
                      + len_slice (flat_map (GetUserRepos h) members);
                    Secrets := Secrets (PState p);
                    Log := Log (PState p) |};
       Sent := (Sent p ++ flat_map (GetUserRepos h) members)%list |}.
Proof.
  revert p. induction members as [|u members IH]; intros p H0 Hov.
  - simpl. rewrite app_nil_r. unfold len_slice. simpl. rewrite Z.add_0_r.
    now destruct p as [[? ? ?] ?].
  - change (flat_map (GetUserRepos h) (u :: members))
      with (GetUserRepos h u ++ flat_map (GetUserRepos h) members)%list in *.
    assert (Hlen : len_slice (GetUserRepos h u
                              ++ flat_map (GetUserRepos h) members)%list
                   = len_slice (GetUserRepos h u)
                     + len_slice (flat_map (GetUserRepos h) members)).
    { unfold len_slice. rewrite length_app. lia. }
    rewrite Hlen in *.
    assert (Hu : 0 <= len_slice (GetUserRepos h u)) by (unfold len_slice; lia).
    assert (Hm : 0 <= len_slice (flat_map (GetUserRepos h) members))
      by (unfold len_slice; lia).
    change (fold_left (AnalyzeUser h) (u :: members) p)
      with (fold_left (AnalyzeUser h) members (AnalyzeUser h p u)).
    rewrite (AnalyzeUser_effect h p u H0) by lia.
    rewrite IH; simpl; [| lia | lia].
    rewrite <- app_assoc. do 2 f_equal. lia.
Qed.

(** X14. [AnalyzeOrg] sends the organisation's repositories and then,
    with include-members on, the repositories of each member in the
    order of the members, and raises [RepoCount] by the number of jobs
    sent (as long as the sum fits [int32]); with include-members off the
    members are not looked at. *)
Theorem AnalyzeOrg_counts_what_it_sends (h : Hosting) (includeMembers : bool)
    (orgname : string) (p : Producer) :
  0 <= RepoCount (PState p) ->
  RepoCount (PState p) + len_slice (org_jobs h includeMembers orgname)
  < 2 ^ 31 ->
  AnalyzeOrg h includeMembers orgname p
  = {| PState := {| RepoCount := RepoCount (PState p)
                      + len_slice (org_jobs h includeMembers orgname);
                    Secrets := Secrets (PState p);
                    Log := Log (PState p) |};
       Sent := (Sent p ++ org_jobs h includeMembers orgname)%list |}.
Proof.
  intros H0 Hov. unfold AnalyzeOrg, org_jobs in *.
  set (members := if includeMembers then GetOrgMembers h orgname else []) in *.
  assert (Hlen : len_slice (GetOrgRepos h orgname
                            ++ flat_map (GetUserRepos h) members)%list
                 = len_slice (GetOrgRepos h orgname)
                   + len_slice (flat_map (GetUserRepos h) members)).
  { unfold len_slice. rewrite length_app. lia. }
  rewrite Hlen in *.
  assert (Ho : 0 <= len_slice (GetOrgRepos h orgname))
    by (unfold len_slice; lia).
  assert (Hm : 0 <= len_slice (flat_map (GetUserRepos h) members))
    by (unfold len_slice; lia).
  rewrite count_and_send by lia.
  rewrite fold_AnalyzeUser by (simpl; lia). simpl.
  rewrite <- app_assoc. do 2 f_equal. lia.
Qed.

Lemma AnalyzeOrg_counts_what_it_sends_witness :
  AnalyzeOrg example_hosting true "pirates" example_producer
  = {| PState := {| RepoCount := 0 + len_slice ["yar"; "empty";
                                                "alice/dotfiles"];
                    Secrets := ∅; Log := [] |};
       Sent := ([] ++ ["yar"; "empty"; "alice/dotfiles"])%list |}.
Proof.
  apply (AnalyzeOrg_counts_what_it_sends example_hosting true "pirates"
           example_producer).
  - simpl. lia.
  - vm_compute. reflexivity.
Defined.

(** ** A worker on a run of jobs *)

(** The effect of a run of jobs that each end back at the [select]. *)
Lemma jobs_continue_effect (a : Adapter) (m : Middleware)
    (jobs : list string) (st st' : State) :
  RepoCount st < 2 ^ 31 ->
  - 2 ^ 31 < RepoCount st - len_slice jobs ->
  AnalyzeRepo a m (map Job jobs) st = Continue st' ->
  RepoCount st' = RepoCount st - len_slice jobs
  /\ quit_signals st'
     = (quit_signals st
        + if ((1 <=? RepoCount st) && (RepoCount st <=? len_slice jobs))%Z
          then 1 else 0)%nat.
Proof.
  revert st. induction jobs as [|reponame jobs IH]; intros st Hhi Hlo Hrun.
  - simpl in Hrun. injection Hrun as <-. unfold len_slice. simpl.
    change (Z.of_nat 0) with 0. split; [lia|].
    destruct (Z.leb_spec 1 (RepoCount st)), (Z.leb_spec (RepoCount st) 0);
      simpl; lia.
  - simpl in Hrun.
    assert (Hlen : len_slice (reponame :: jobs) = len_slice jobs + 1)
      by (unfold len_slice; simpl; lia).
    assert (0 <= len_slice jobs) by (unfold len_slice; lia).
    rewrite Hlen in *.
    destruct (job a m reponame st) as [s|s|why s] eqn:Hjob;
      try discriminate.
    destruct (job_continue_effect a m reponame st s ltac:(lia) Hjob)
      as [Hc Hq].
    destruct (IH s ltac:(lia) ltac:(lia) Hrun) as [Hc' Hq'].
    split; [lia|]. rewrite Hq', Hq, Hc.
    destruct (Z.eqb_spec (RepoCount st) 1),
             (Z.leb_spec 1 (RepoCount st - 1)),
             (Z.leb_spec (RepoCount st - 1) (len_slice jobs)),
             (Z.leb_spec 1 (RepoCount st)),
             (Z.leb_spec (RepoCount st) (len_slice jobs + 1));
      simpl; lia.
Qed.

(** X15. A worker that handles a run of jobs and is back at the [select]
    after each has decremented the counter once per job, and has sent
    the completion signal once if the counter went through zero on the
    way, and not at all otherwise. *)
Theorem worker_signals_once_in_sequence (a : Adapter) (m : Middleware)
    (jobs : list string) (st st' : State) :
  RepoCount st < 2 ^ 31 ->
  - 2 ^ 31 < RepoCount st - len_slice jobs ->
  AnalyzeRepo a m (map Job jobs) st = Continue st' ->
  RepoCount st' = RepoCount st - len_slice jobs
  /\ quit_signals st'
     = (quit_signals st
        + if ((1 <=? RepoCount st) && (RepoCount st <=? len_slice jobs))%Z
          then 1 else 0)%nat.
Proof.
  revert st. induction jobs as [|reponame jobs IH]; intros st Hhi Hlo Hrun.
  - simpl in Hrun. injection Hrun as <-. unfold len_slice. simpl.
    change (Z.of_nat 0) with 0. split; [lia|].
    destruct (Z.leb_spec 1 (RepoCount st)), (Z.leb_spec (RepoCount st) 0);
      simpl; lia.
  - simpl in Hrun.
    assert (Hlen : len_slice (reponame :: jobs) = len_slice jobs + 1)
      by (unfold len_slice; simpl; lia).
    assert (0 <= len_slice jobs) by (unfold len_slice; lia).
    rewrite Hlen in *.
    destruct (job a m reponame st) as [s|s|why s] eqn:Hjob;
      try discriminate.
    destruct (job_continue_effect a m reponame st s ltac:(lia) Hjob)
      as [Hc Hq].
    destruct (IH s ltac:(lia) ltac:(lia) Hrun) as [Hc' Hq'].
    split; [lia|]. rewrite Hq', Hq, Hc.
    destruct (Z.eqb_spec (RepoCount st) 1),
             (Z.leb_spec 1 (RepoCount st - 1)),
             (Z.leb_spec (RepoCount st - 1) (len_slice jobs)),
             (Z.leb_spec 1 (RepoCount st)),
             (Z.leb_spec (RepoCount st) (len_slice jobs + 1));
      simpl; lia.
Qed.

Lemma worker_signals_once_in_sequence_witness :
  RepoCount (outcome_state
               (AnalyzeRepo example_adapter (example_m 0 true)
                            (map Job ["yar"; "empty"]) (example_st 2)))
  = 2 - len_slice ["yar"; "empty"]
  /\ quit_signals
       (outcome_state
          (AnalyzeRepo example_adapter (example_m 0 true)
                       (map Job ["yar"; "empty"]) (example_st 2)))
     = (quit_signals (example_st 2) + 1)%nat.
Proof.
  apply (worker_signals_once_in_sequence example_adapter (example_m 0 true)
           ["yar"; "empty"] (example_st 2)).
  - vm_compute. reflexivity.
  - vm_compute. reflexivity.
  - vm_compute. reflexivity.
Defined.

Lemma AnalyzeOrg_without_members (h : Hosting) (orgname : string)
    (p : Producer) :
  AnalyzeOrg h false orgname p
  = fold_left send (GetOrgRepos h orgname)
              (count_repos (GetOrgRepos h orgname) p).
Proof. reflexivity. Qed.

(** X16. [AnalyzeOrg] counts and sends the organisation's own
    repositories before it looks up the repositories of any member. A
    worker that has handled those jobs by then has brought a counter
    that started at zero back to zero and sent the completion signal;
    the members' repositories are counted and sent after it. *)
Theorem org_completion_before_members (h : Hosting) (a : Adapter)
    (m : Middleware) (orgname : string) (p : Producer) (st1 : State) :
  RepoCount (PState p) = 0 ->
  GetOrgRepos h orgname <> [] ->
  len_slice (org_jobs h true orgname) < 2 ^ 31 ->
  AnalyzeRepo a m (map Job (GetOrgRepos h orgname))
              (PState (AnalyzeOrg h false orgname p)) = Continue st1 ->
  quit_signals st1 = (quit_signals (PState p) + 1)%nat
  /\ RepoCount st1 = 0
  /\ fold_left (AnalyzeUser h) (GetOrgMembers h orgname)
               {| PState := st1; Sent := Sent (AnalyzeOrg h false orgname p) |}
     = {| PState :=
            {| RepoCount :=
                 len_slice (flat_map (GetUserRepos h)
                                     (GetOrgMembers h orgname));
               Secrets := Secrets st1; Log := Log st1 |};
          Sent := (Sent p ++ org_jobs h true orgname)%list |}.
Proof.
  intros H0 Hne Hov Hrun.
  assert (Hlen : len_slice (org_jobs h true orgname)
                 = len_slice (GetOrgRepos h orgname)
                   + len_slice (flat_map (GetUserRepos h)
                                         (GetOrgMembers h orgname))).
  { unfold org_jobs, len_slice. rewrite length_app. lia. }
  assert (Ho : 0 < len_slice (GetOrgRepos h orgname)).
  { unfold len_slice. destruct (GetOrgRepos h orgname); [contradiction|].
    simpl. lia. }
  assert (Hm : 0 <= len_slice (flat_map (GetUserRepos h)
                                        (GetOrgMembers h orgname)))
    by (unfold len_slice; lia).
  rewrite AnalyzeOrg_without_members in *.
  pose proof (count_and_send (GetOrgRepos h orgname) p ltac:(lia) ltac:(lia))
    as Hcs.
  rewrite Hcs in *. clear Hcs. simpl in *.
  apply jobs_continue_effect in Hrun as [Hc Hq];
    [| simpl; lia | simpl; lia].
  simpl in Hc, Hq. rewrite H0 in *.
  assert (Hc0 : RepoCount st1 = 0) by lia.
  split.
  - rewrite Hq. unfold quit_signals. simpl.
    destruct (Z.leb_spec 1 (0 + len_slice (GetOrgRepos h orgname))); [|lia].
    destruct (Z.leb_spec (0 + len_slice (GetOrgRepos h orgname))
                         (len_slice (GetOrgRepos h orgname))); [|lia].
    reflexivity.
  - split; [exact Hc0|].
    rewrite fold_AnalyzeUser by (simpl; lia). simpl.
    rewrite Hc0. unfold org_jobs. rewrite <- app_assoc. reflexivity.
Qed.

Lemma org_completion_before_members_witness :
  quit_signals
    (outcome_state
       (AnalyzeRepo example_adapter (example_m 0 true)
                    (map Job ["yar"; "empty"]) (example_st 2)))
  = (quit_signals (PState example_producer) + 1)%nat.
Proof.
  apply (org_completion_before_members example_hosting example_adapter
           (example_m 0 true) "pirates" example_producer
           (outcome_state
              (AnalyzeRepo example_adapter (example_m 0 true)
                           (map Job ["yar"; "empty"]) (example_st 2)))).
  - reflexivity.
  - discriminate.
  - vm_compute. reflexivity.
  - vm_compute. reflexivity.
Defined.

(** ** The completion signal is not lost *)

Lemma Exists_insert (ws : list Worker) (i : nat) (w w' : Worker)
    (P : Worker -> Prop) :
  ws !! i = Some w -> P w' -> Exists P (<[i := w']> ws).
Proof.
  intros Hw HP. apply Exists_exists. exists w'. split; [|exact HP].
  apply list_elem_of_In. apply (list_elem_of_lookup_2 _ i).
  apply list_lookup_insert_eq. now apply lookup_lt_Some in Hw.
Qed.

Lemma pool_step_signal_due (sent : nat) (p : Pool) (i : nat) :
  signal_due sent p -> signal_due sent (pool_step p i).
Proof.
  intros (Hc & Hhi & Hok & Hs & Hz). unfold pool_step.
  destruct (Workers p !! i) as [w|] eqn:Hw; [|now repeat split].
  pose proof (pending_le_total _ _ _ Hw) as Hle.
  assert (Hwok : worker_ok w).
  { rewrite Forall_forall in Hok. apply Hok.
    apply list_elem_of_In. eapply list_elem_of_lookup_2. exact Hw. }
  unfold worker_step. destruct w as [jobs pos].
  unfold worker_ok in Hwok. simpl in *.
  destruct pos; [destruct jobs as [|n]|].
  - rewrite list_insert_id by exact Hw. now repeat split.
  - pose proof (pending_total_insert _ _ _
                  {| JobsLeft := S n; At := BeforeLoad |} Hw) as E.
    unfold pending in E, Hle. simpl in E, Hle.
    unfold signal_due. simpl. rewrite wrap32_small by lia.
    split; [lia|]. split; [lia|]. split; [|split].
    + apply Forall_insert_ok; [exact Hok|]. intros _. simpl. lia.
    + exact Hs.
    + intros _. right. now apply (Exists_insert _ _ _ _ _ Hw).
  - pose proof (pending_total_insert _ _ _
                  {| JobsLeft := Nat.pred jobs; At := BeforeAdd |} Hw) as E.
    unfold pending in E. simpl in E.
    assert (Hok' : Forall worker_ok
                     (<[i := {| JobsLeft := Nat.pred jobs; At := BeforeAdd |}]>
                        (Workers p))).
    { apply Forall_insert_ok; [exact Hok|]. intros H. discriminate. }
    unfold signal_due. simpl. unfold signal_if_zero, LoadInt32.
    destruct (Z.eqb_spec (RepoCount (Shared p)) 0) as [H0 | Hn0].
    + assert (Hq : quit_signals (emit QuitSend (Shared p))
                   = S (quit_signals (Shared p))).
      { unfold quit_signals, emit. simpl.
        rewrite List.filter_app, length_app. simpl. lia. }
      simpl. rewrite Hq.
      split; [lia|]. split; [lia|]. split; [exact Hok'|].
      split; [lia|]. intros _. left. lia.
    + split; [lia|]. split; [lia|]. split; [exact Hok'|].
      split; [exact Hs|]. intros H0. contradiction.
Qed.

Lemma run_schedule_signal_due (sent : nat) (schedule : list nat) (p : Pool) :
  signal_due sent p -> signal_due sent (run_schedule schedule p).
Proof.
  unfold run_schedule. revert p.
  induction schedule as [|i rest IH]; intros p H; simpl; [exact H|].
  apply IH. now apply pool_step_signal_due.
Qed.

Lemma pending_total_finished (ws : list Worker) :
  Forall finished ws -> pending_total ws = 0%nat.
Proof.
  induction 1 as [|w ws [Hj Ha] _ IH]; [reflexivity|]. simpl.
  unfold pending. now rewrite Ha, Hj, IH.
Qed.

(** X17. Whatever the interleaving, when the counter starts at the
    number of jobs the workers have to finish (at least one) and all
    workers have finished, the completion signal has been sent at least
    once: the race of the decrement and the load can send it twice, but
    cannot lose it. *)
Theorem completion_signal_not_lost (schedule : list nat) (p : Pool) :
  Forall (fun w => At w = BeforeAdd) (Workers p) ->
  RepoCount (Shared p) = Z.of_nat (pending_total (Workers p)) ->
  0 < RepoCount (Shared p) < 2 ^ 31 ->
  Forall finished (Workers (run_schedule schedule p)) ->
  RepoCount (Shared (run_schedule schedule p)) = 0
  /\ (quit_signals (Shared p) + 1
      <= quit_signals (Shared (run_schedule schedule p)))%nat.
Proof.
  intros Hstart Hc Hpos Hfin.
  assert (Hinit : signal_due (quit_signals (Shared p)) p).
  { unfold signal_due. split; [exact Hc|]. split; [lia|]. split; [|split].
    - eapply Forall_impl; [|exact Hstart]. intros w Hw H. congruence.
    - lia.
    - intros H0. lia. }
  destruct (run_schedule_signal_due _ schedule p Hinit)
    as (Hc' & _ & _ & _ & Hz).
  rewrite (pending_total_finished _ Hfin) in Hc'.
  split; [exact Hc'|].
  destruct (Hz Hc') as [Hq | Hex]; [exact Hq|].
  apply Exists_exists in Hex as (w & Hin & Hw).
  rewrite Forall_forall in Hfin. destruct (Hfin w Hin) as [_ Ha]. congruence.
Qed.

Lemma completion_signal_not_lost_witness :
  RepoCount (Shared (run_schedule [0; 1; 0; 1]%nat (two_workers 2))) = 0
  /\ (quit_signals (Shared (two_workers 2)) + 1
      <= quit_signals (Shared (run_schedule [0; 1; 0; 1]%nat
                                            (two_workers 2))))%nat.
Proof.
  apply completion_signal_not_lost.
  - repeat constructor.
  - reflexivity.
  - simpl. lia.
  - vm_compute. repeat constructor.
Defined.

(** ** Skip-duplicates *)

Lemma fresh_reports_refl (repo : string) (s : State) : fresh_reports repo s s.
Proof.
  unfold fresh_reports. split; [reflexivity|]. exists [].
  split; [now rewrite app_nil_r|]. split; [constructor|]. intros e [].
Qed.

Lemma fresh_reports_trans (repo : string) (s t u : State) :
  fresh_reports repo s t -> fresh_reports repo t u -> fresh_reports repo s u.
Proof.
  intros (S1 & n1 & E1 & D1 & F1) (S2 & n2 & E2 & D2 & F2).
  split; [etransitivity; eassumption|].
  exists (n1 ++ n2)%list. split; [now rewrite E2, E1, <- app_assoc|]. split.
  - rewrite map_app. apply NoDup_app; [exact D1 | exact D2 |].
    intros x H1 H2.
    apply in_map_iff in H1 as (e1 & <- & He1).
    apply in_map_iff in H2 as (e2 & Heq & He2).
    destruct (F1 e1 He1) as (t1 & T1 & _ & In1).
    destruct (F2 e2 He2) as (t2 & T2 & Out2 & _).
    rewrite T1 in Heq. rewrite T2 in Heq. injection Heq as ->.
    contradiction.
  - intros e He. apply in_app_or in He as [He | He].
    + destruct (F1 e He) as (t1 & T1 & Out1 & In1).
      exists t1. repeat split; [exact T1 | exact Out1 | set_solver].
    + destruct (F2 e He) as (t2 & T2 & Out2 & In2).
      exists t2. repeat split; [exact T2 | set_solver | exact In2].
Qed.

Lemma regex_rule_fresh (m : Middleware) (d : DiffObject)
    (lines : list string) (i : Z) (line : string) (rule : Rule) (st : State) :
  SkipDuplicates (MFlags m) = true ->
  fresh_reports (Reponame d) st
                (state_of (regex_rule m d lines i line rule st)).
Proof.
  intros Hskip. unfold regex_rule.
  destruct (negb _); [|apply fresh_reports_refl].
  destruct (locate _ _ _ _) as [[[newDiff secret] t]|] eqn:L;
    [|apply fresh_reports_refl].
  simpl. unfold report, SecretExists. rewrite Hskip.
  destruct (decide ((Reponame d, t) ∈ Secrets st)) as [Hin | Hnot].
  - rewrite bool_decide_eq_true_2 by exact Hin. simpl.
    apply fresh_reports_refl.
  - rewrite bool_decide_eq_false_2 by exact Hnot. simpl.
    destruct (locate_Some _ _ _ _ _ _ _ L) as (context & _ & _ & -> & S).
    split; [simpl; set_solver|].
    eexists [_]. split; [reflexivity|]. split.
    + simpl. constructor; [intros [] | constructor].
    + intros e [<- | []]. exists t. simpl. split; [exact S|].
      split; [exact Hnot | set_solver].
Qed.

(** X18. With skip-duplicates on, the Findings that [AnalyzeRegexDiff]
    reports point at pairwise different texts, none of which was in the
    ledger for the repository before, and all of which are in it
    afterwards. *)
Theorem skip_duplicates_reports_fresh_texts (m : Middleware)
    (d : DiffObject) (st : State) :
  SkipDuplicates (MFlags m) = true ->
  exists new,
    Log (state_of (AnalyzeRegexDiff m d st)) = (Log st ++ new)%list
    /\ NoDup (map finding_text new)
    /\ forall e, In e new ->
         exists t, finding_text e = Some t
                   /\ ((Reponame d, t) ∉ Secrets st)
                   /\ ((Reponame d, t)
                       ∈ Secrets (state_of (AnalyzeRegexDiff m d st))).
Proof.
  intros Hskip.
  assert (H : fresh_reports (Reponame d) st
                            (state_of (AnalyzeRegexDiff m d st))).
  { unfold AnalyzeRegexDiff.
    apply (foldM_rel (fresh_reports (Reponame d)));
      [apply fresh_reports_refl | apply fresh_reports_trans|].
    intros il s _. unfold regex_line.
    apply (foldM_rel (fresh_reports (Reponame d)));
      [apply fresh_reports_refl | apply fresh_reports_trans|].
    intros rule t _. now apply regex_rule_fresh. }
  exact (proj2 H).
Qed.

Lemma skip_duplicates_reports_fresh_texts_witness :
  exists new,
    Log (state_of (AnalyzeRegexDiff (example_m 0 true) example_d
                                    (example_st 1)))
    = (Log (example_st 1) ++ new)%list
    /\ NoDup (map finding_text new)
    /\ forall e, In e new ->
         exists t, finding_text e = Some t
                   /\ ((Reponame example_d, t) ∉ Secrets (example_st 1))
                   /\ ((Reponame example_d, t)
                       ∈ Secrets (state_of (AnalyzeRegexDiff (example_m 0 true)
                                              example_d (example_st 1)))).
Proof.
  apply skip_duplicates_reports_fresh_texts. reflexivity.
Defined.

(** ** The output of a traversal *)

Lemma traverse_schedule (a : Adapter) (m : Middleware) (reponame : string)
    (commits : list Commit) (st : State) :
  traverse a m reponame commits st
  = foldM (run_item m) (schedule a reponame commits) st.
Proof.
  rewrite traverse_rev. unfold schedule. rewrite foldM_flat_map.
  apply foldM_ext. intros commit t _. apply commit_body_items.
Qed.

(** X19. In the pattern-only mode with skip-duplicates off and the
    radius in range for every diff, the traversal of a repository does
    not panic and its output is exactly, in the order of the schedule,
    one warning for each unit that could not be read and the Findings of
    each diff; the ledger and the counter are unchanged. *)
Theorem traverse_output (a : Adapter) (m : Middleware) (reponame : string)
    (commits : list Commit) (st : State) :
  Both (MFlags m) = false -> Entropy (MFlags m) = false ->
  SkipDuplicates (MFlags m) = false ->
  0 <= Context (MFlags m) ->
  Forall (item_in_range m) (schedule a reponame commits) ->
  exists st',
    traverse a m reponame commits st = Ok st'
    /\ Log st'
       = (Log st ++ flat_map (item_events m) (schedule a reponame commits))%list
    /\ Secrets st' = Secrets st
    /\ RepoCount st' = RepoCount st.
Proof.
  intros Hboth Hent Hskip Hr Hrange.
  rewrite traverse_schedule. apply foldM_log_exact. intros it s Hit.
  rewrite Forall_forall in Hrange. specialize (Hrange it Hit).
  destruct it as [format args | d]; simpl in *.
  - eexists. split; [reflexivity|]. auto.
  - unfold analyze_diff. rewrite Hboth, Hent.
    now apply AnalyzeRegexDiff_log_exact.
Qed.

Lemma traverse_output_witness :
  exists st',
    traverse example_adapter (example_m 0 false) "yar"
             [ {| Hash := "b2" |}; {| Hash := "a1" |} ] (example_st 1)
    = Ok st'
    /\ Log st'
       = (Log (example_st 1)
          ++ flat_map (item_events (example_m 0 false))
               (schedule example_adapter "yar"
                         [ {| Hash := "b2" |}; {| Hash := "a1" |} ]))%list
    /\ Secrets st' = Secrets (example_st 1)
    /\ RepoCount st' = RepoCount (example_st 1).
Proof.
  apply traverse_output.
  - reflexivity.
  - reflexivity.
  - reflexivity.
  - simpl. lia.
  - repeat constructor. vm_compute. discriminate.
Defined.

Lemma counter_never_negative_witness :
  0 <= RepoCount (Shared (run_schedule [0; 1; 0; 1]%nat (two_workers 2))).
Proof.
  apply counter_never_negative. unfold counter_covers. split.
  - vm_compute. split; [discriminate | reflexivity].
  - repeat constructor; intros H; discriminate H.
Defined.

(** ** The run of the pattern detector, match by match *)

Lemma in_regex_matches (m : Middleware) (d : DiffObject) (x : Match) :
  In x (regex_matches m d) <->
  In (match_index x, match_line x) (enumerate (Split_nl (Diff d)))
  /\ In (match_rule x) (Rules m)
  /\ match_text x <> "".
Proof.
  destruct x as [[i line] rule]. unfold regex_matches, match_index,
    match_line, match_rule, match_text. simpl. rewrite in_flat_map. split.
  - intros ([j l] & Hil & H). apply in_flat_map in H as (r & Hr & H).
    simpl in H.
    destruct (String.eqb_spec (FindString (Regex r) l) "") as [|Hne];
      [contradiction|].
    destruct H as [H|[]]. injection H as <- <- <-. auto.
  - intros (Hil & Hr & Hne). exists (i, line). split; [exact Hil|].
    apply in_flat_map. exists rule. split; [exact Hr|]. simpl.
    destruct (String.eqb_spec (FindString (Regex rule) line) "");
      [contradiction | now left].
Qed.

Lemma AnalyzeRegexDiff_by_match (m : Middleware) (d : DiffObject) (st : State) :
  AnalyzeRegexDiff m d st = foldM (match_step m d) (regex_matches m d) st.
Proof.
  unfold AnalyzeRegexDiff, regex_matches. rewrite foldM_flat_map.
  apply foldM_ext. intros il s _. unfold regex_line.
  rewrite foldM_flat_map. apply foldM_ext. intros rule t _.
  unfold regex_rule.
  destruct (String.eqb (FindString (Regex rule) (snd il)) ""); simpl;
    [reflexivity|].
  unfold match_step, match_index, match_line, match_rule, match_text. simpl.
  now destruct (locate _ _ _ _) as [[[newDiff secret] t']|].
Qed.

Lemma report_decides (m : Middleware) (d : DiffObject) (rule : Rule)
    (newDiff : string) (secret : list Z) (t : string) (st : State) :
  report m d rule newDiff secret t st
  = decide_report (SkipDuplicates (MFlags m)) (Reponame d) st
      (t, LogFinding (NewFinding (Reason rule) secret d) newDiff).
Proof.
  unfold report, decide_report, SecretExists. simpl.
  destruct (SkipDuplicates (MFlags m)); simpl; [|reflexivity].
  now destruct (bool_decide _).
Qed.

Lemma window_is_slice (lines : list string) (lo n : nat) :
  (lo + n <= List.length lines)%nat ->
  flat_map (fun k => match nth_error lines k with
                     | Some line => [line]
                     | None => []
                     end) (seq lo n)
  = firstn n (skipn lo lines).
Proof.
  revert lo. induction n as [|n IH]; intros lo H; [reflexivity|].
  simpl seq. simpl flat_map.
  destruct (nth_error lines lo) as [line|] eqn:E.
  - destruct (skipn_head _ _ _ E) as [rest Hrest].
    rewrite Hrest. simpl. f_equal. rewrite IH by lia.
    replace (skipn (S lo) lines) with rest; [reflexivity|].
    change (S lo) with (1 + lo)%nat. rewrite <- skipn_skipn, Hrest.
    reflexivity.
  - apply nth_error_None in E. lia.
Qed.

Lemma slice_lines_between (lines : list string) (lo hi : Z) :
  0 <= lo <= hi -> hi <= len_slice lines ->
  slice lines lo hi = Some (lines_between lines lo hi).
Proof.
  intros H1 H2. rewrite slice_in_range by assumption. f_equal.
  unfold lines_between. symmetry. apply window_is_slice.
  unfold len_slice in H2. lia.
Qed.

Lemma locate_window (lines : list string) (i r : Z) (re : Regexp)
    (line : string) :
  0 <= i -> nth_error lines (Z.to_nat i) = Some line ->
  0 <= r -> i + r + 1 <= int_max ->
  locate lines i r (FindString re line)
  = Some (Join_nl (window lines i r),
          [Index (Join_nl (window lines i r)) (FindString re line);
           Index (Join_nl (window lines i r)) (FindString re line)
           + len (FindString re line)],
          FindString re line).
Proof.
  intros Hi Hline Hr Hov.
  assert (HN : i < len_slice lines).
  { assert (nth_error lines (Z.to_nat i) <> None) as Hb by congruence.
    apply nth_error_Some in Hb. unfold len_slice. lia. }
  destruct (locate_in_range lines i r re line Hi Hline Hr Hov)
    as (newDiff & secret & L).
  destruct (locate_Some _ _ _ _ _ _ _ L) as (context & Hs & -> & -> & _).
  rewrite context_bounds_in_range in Hs by lia. simpl in Hs.
  rewrite slice_lines_between in Hs by lia. injection Hs as <-.
  exact L.
Qed.

Lemma match_step_in_range (m : Middleware) (d : DiffObject) (x : Match)
    (st : State) :
  In x (regex_matches m d) ->
  0 <= Context (MFlags m) ->
  match_index x + Context (MFlags m) + 1 <= int_max ->
  match_step m d x st
  = Ok (decide_report (SkipDuplicates (MFlags m)) (Reponame d) st
                      (window_report m d x)).
Proof.
  intros Hx Hr Hov. apply in_regex_matches in Hx as (Hil & _ & _).
  destruct (enumerate_line_bound _ _ _ Hil) as [Hi Hn].
  unfold match_step, match_text.
  rewrite (locate_window _ _ _ _ _ (proj1 Hi) Hn Hr Hov).
  now rewrite report_decides.
Qed.

Lemma foldM_ok_fold_left {A S} (body : A -> S -> Result S) (f : S -> A -> S)
    (l : list A) :
  (forall x s, In x l -> body x s = Ok (f s x)) ->
  forall s, foldM body l s = Ok (fold_left f l s).
Proof.
  induction l as [|x l IH]; intros H s; simpl; [reflexivity|].
  rewrite (H x s (or_introl eq_refl)). simpl.
  apply IH. intros y t Hy. apply H. now right.
Qed.

Lemma fold_left_over_map {A B S} (f : S -> B -> S) (g : A -> B) (l : list A)
    (s : S) :
  fold_left f (map g l) s = fold_left (fun t x => f t (g x)) l s.
Proof. revert s. induction l as [|x l IH]; intros s; simpl; auto. Qed.

Lemma AnalyzeRegexDiff_in_range_run (m : Middleware) (d : DiffObject)
    (st : State) :
  0 <= Context (MFlags m) ->
  (forall x, In x (regex_matches m d) ->
             match_index x + Context (MFlags m) + 1 <= int_max) ->
  AnalyzeRegexDiff m d st
  = Ok (fold_left (decide_report (SkipDuplicates (MFlags m)) (Reponame d))
                  (map (window_report m d) (regex_matches m d)) st).
Proof.
  intros Hr Hov. rewrite AnalyzeRegexDiff_by_match.
  rewrite fold_left_over_map.
  apply (foldM_ok_fold_left (match_step m d)
           (fun s x => decide_report (SkipDuplicates (MFlags m)) (Reponame d)
                                     s (window_report m d x))).
  intros x s Hx. now apply match_step_in_range; [| |apply Hov].
Qed.

Lemma decide_report_cases (skip : bool) (repo : string) (s : State)
    (rep : string * Event) :
  (skip = true -> (repo, fst rep) ∉ Secrets s ->
   Secrets (decide_report skip repo s rep)
   = {[ (repo, fst rep) ]} ∪ Secrets s
   /\ Log (decide_report skip repo s rep) = (Log s ++ [snd rep])%list)
  /\ (skip = true -> (repo, fst rep) ∈ Secrets s ->
      decide_report skip repo s rep = s)
  /\ (skip = false ->
      Secrets (decide_report skip repo s rep) = Secrets s
      /\ Log (decide_report skip repo s rep) = (Log s ++ [snd rep])%list).
Proof.
  unfold decide_report. repeat split.
  - subst skip. now rewrite bool_decide_eq_false_2 by assumption.
  - subst skip. now rewrite bool_decide_eq_false_2 by assumption.
  - intros -> Hin. now rewrite bool_decide_eq_true_2 by assumption.
  - now subst skip.
  - now subst skip.
Qed.

Lemma Forall2_over_map {A B} (R : A -> B -> Prop) (g : A -> B) (l : list A) :
  (forall x, R x (g x)) -> Forall2 R l (map g l).
Proof. intros H. induction l as [|x l IH]; simpl; constructor; auto. Qed.

(** C4 (amended). With the radius not negative and, for every match, the
    line arithmetic within Go's int, [AnalyzeRegexDiff] handles the
    regex matches of the diff one after the other, each by the rule of
    the design: with skip-duplicates on and the pair (repository,
    matched text) not in the ledger the pair is recorded and the Finding
    reported; with the pair in the ledger the Finding is suppressed;
    with skip-duplicates off the Finding is reported and nothing is
    recorded. Every pair of a line and a rule that matches it is among
    these matches. *)
Theorem AnalyzeRegexDiff_decides_each_match (m : Middleware)
    (d : DiffObject) (st : State) :
  0 <= Context (MFlags m) ->
  (forall x, In x (regex_matches m d) ->
             match_index x + Context (MFlags m) + 1 <= int_max) ->
  (forall i line rule,
     In (i, line) (enumerate (Split_nl (Diff d))) -> In rule (Rules m) ->
     FindString (Regex rule) line <> "" ->
     In (i, line, rule) (regex_matches m d))
  /\ (exists reports,
        Forall2 (fun x rep =>
                   fst rep = match_text x
                   /\ exists secret newDiff,
                        snd rep = LogFinding
                                    (NewFinding (Reason (match_rule x))
                                                secret d) newDiff)
                (regex_matches m d) reports
        /\ AnalyzeRegexDiff m d st
           = Ok (fold_left (decide_report (SkipDuplicates (MFlags m))
                                          (Reponame d))
                           reports st))
  /\ (forall s rep,
        (SkipDuplicates (MFlags m) = true ->
         (Reponame d, fst rep) ∉ Secrets s ->
         Secrets (decide_report (SkipDuplicates (MFlags m)) (Reponame d) s rep)
         = {[ (Reponame d, fst rep) ]} ∪ Secrets s
         /\ Log (decide_report (SkipDuplicates (MFlags m)) (Reponame d) s rep)
            = (Log s ++ [snd rep])%list)
        /\ (SkipDuplicates (MFlags m) = true ->
            (Reponame d, fst rep) ∈ Secrets s ->
            decide_report (SkipDuplicates (MFlags m)) (Reponame d) s rep = s)
        /\ (SkipDuplicates (MFlags m) = false ->
            Secrets (decide_report (SkipDuplicates (MFlags m)) (Reponame d)
                                   s rep) = Secrets s
            /\ Log (decide_report (SkipDuplicates (MFlags m)) (Reponame d)
                                  s rep) = (Log s ++ [snd rep])%list)).
Proof.
  intros Hr Hov. split; [|split].
  - intros i line rule Hil Hrule Hne.
    apply (in_regex_matches m d (i, line, rule)). auto.
  - exists (map (window_report m d) (regex_matches m d)). split.
    + apply Forall2_over_map. intros x. unfold window_report. simpl.
      split; [reflexivity|]. eauto.
    + now apply AnalyzeRegexDiff_in_range_run.
  - intros s rep. apply decide_report_cases.
Qed.

Lemma AnalyzeRegexDiff_decides_each_match_witness :
  exists reports,
    Forall2 (fun x rep =>
               fst rep = match_text x
               /\ exists secret newDiff,
                    snd rep = LogFinding
                                (NewFinding (Reason (match_rule x))
                                            secret example_d) newDiff)
            (regex_matches (example_m 0 true) example_d) reports
    /\ AnalyzeRegexDiff (example_m 0 true) example_d (example_st 1)
       = Ok (fold_left (decide_report
                          (SkipDuplicates (MFlags (example_m 0 true)))
                          (Reponame example_d))
                       reports (example_st 1)).
Proof.
  assert (Hr : 0 <= Context (MFlags (example_m 0 true))) by (simpl; lia).
  assert (Hov : forall x, In x (regex_matches (example_m 0 true) example_d) ->
                  match_index x + Context (MFlags (example_m 0 true)) + 1
                  <= int_max).
  { intros x [<- | []]. vm_compute. discriminate. }
  exact (proj1 (proj2 (AnalyzeRegexDiff_decides_each_match
                         (example_m 0 true) example_d (example_st 1) Hr Hov))).
Defined.

(** C4, as stated, fails where the window cannot be cut: with the
    radius -1 and skip-duplicates off the rule matches the line of the
    diff, and [AnalyzeRegexDiff] panics on [lines[start:end]] without
    reporting the Finding. *)
Lemma match_without_finding_at_negative_radius :
  SkipDuplicates (MFlags (example_m (-1) false)) = false
  /\ regex_matches (example_m (-1) false) example_d
     = [(0, example_diff, token_rule)]
  /\ AnalyzeRegexDiff (example_m (-1) false) example_d (example_st 1)
     = Panic "slice bounds out of range" (example_st 1)
  /\ Log (state_of (AnalyzeRegexDiff (example_m (-1) false) example_d
                                     (example_st 1))) = [].
Proof. repeat split; vm_compute; reflexivity. Qed.

Lemma window_length (lines : list string) (i r : Z) :
  0 <= i < len_slice lines -> 0 <= r ->
  len_slice (window lines i r)
  = Z.min (len_slice lines) (i + r + 1) - Z.max 0 (i - r).
Proof.
  intros Hi Hr. unfold window, lines_between.
  rewrite window_is_slice by (unfold len_slice in *; lia).
  unfold len_slice in *. rewrite length_firstn, length_skipn. lia.
Qed.

Lemma window_at_index (lines : list string) (i r k : Z) :
  0 <= i < len_slice lines -> 0 <= r ->
  0 <= k < len_slice (window lines i r) ->
  at_index (window lines i r) k = at_index lines (Z.max 0 (i - r) + k).
Proof.
  intros Hi Hr Hk. pose proof (window_length lines i r Hi Hr) as Hlen.
  unfold at_index.
  destruct (Z.leb_spec 0 k); [|lia].
  destruct (Z.ltb_spec k (len_slice (window lines i r))); [|lia].
  destruct (Z.leb_spec 0 (Z.max 0 (i - r) + k)); [|lia].
  destruct (Z.ltb_spec (Z.max 0 (i - r) + k) (len_slice lines)); [|lia].
  simpl. unfold window, lines_between.
  rewrite window_is_slice by (unfold len_slice in *; lia).
  rewrite window_nth by lia. f_equal. lia.
Qed.

(** C5 (amended). For a radius r >= 0 and matches on lines i with
    i + r + 1 within Go's int, [AnalyzeRegexDiff] does not panic and
    the context it takes for every match on a line i is the join of the
    lines [max(0, i-r)] up to [min(N, i+r+1)] of the diff: its run is
    the run of the design's rule on the reports that carry those
    contexts. The bounds lie in [0, N] around i, and the window holds
    exactly the lines of those indices. *)
Theorem AnalyzeRegexDiff_context_is_window (m : Middleware)
    (d : DiffObject) (st : State) :
  0 <= Context (MFlags m) ->
  (forall x, In x (regex_matches m d) ->
             match_index x + Context (MFlags m) + 1 <= int_max) ->
  AnalyzeRegexDiff m d st
  = Ok (fold_left (decide_report (SkipDuplicates (MFlags m)) (Reponame d))
                  (map (window_report m d) (regex_matches m d)) st)
  /\ forall x, In x (regex_matches m d) ->
       0 <= Z.max 0 (match_index x - Context (MFlags m)) <= match_index x
       /\ match_index x
          < Z.min (len_slice (Split_nl (Diff d)))
                  (match_index x + Context (MFlags m) + 1)
          <= len_slice (Split_nl (Diff d))
       /\ len_slice (window (Split_nl (Diff d)) (match_index x)
                            (Context (MFlags m)))
          = Z.min (len_slice (Split_nl (Diff d)))
                  (match_index x + Context (MFlags m) + 1)
            - Z.max 0 (match_index x - Context (MFlags m))
       /\ forall k,
            0 <= k < len_slice (window (Split_nl (Diff d)) (match_index x)
                                       (Context (MFlags m))) ->
            at_index (window (Split_nl (Diff d)) (match_index x)
                             (Context (MFlags m))) k
            = at_index (Split_nl (Diff d))
                       (Z.max 0 (match_index x - Context (MFlags m)) + k).
Proof.
  intros Hr Hov. split; [now apply AnalyzeRegexDiff_in_range_run|].
  intros x Hx. apply in_regex_matches in Hx as (Hil & _ & _).
  destruct (enumerate_line_bound _ _ _ Hil) as [Hi _].
  split; [lia|]. split; [lia|].
  split; [now apply window_length|].
  intros k Hk. now apply window_at_index.
Qed.

Lemma AnalyzeRegexDiff_context_is_window_witness :
  AnalyzeRegexDiff (example_m 2 true) example_d (example_st 1)
  = Ok (fold_left (decide_report (SkipDuplicates (MFlags (example_m 2 true)))
                                 (Reponame example_d))
                  (map (window_report (example_m 2 true) example_d)
                       (regex_matches (example_m 2 true) example_d))
                  (example_st 1)).
Proof.
  assert (Hr : 0 <= Context (MFlags (example_m 2 true))) by (simpl; lia).
  assert (Hov : forall x, In x (regex_matches (example_m 2 true) example_d) ->
                  match_index x + Context (MFlags (example_m 2 true)) + 1
                  <= int_max).
  { intros x [<- | []]. vm_compute. discriminate. }
  exact (proj1 (AnalyzeRegexDiff_context_is_window
                  (example_m 2 true) example_d (example_st 1) Hr Hov)).
Defined.

(** C6. [AnalyzeRegexDiff] handles the regex matches of the diff one
    after the other, and for every match the step either panics on a
    slice expression, recording no Finding, or hands to the duplicate
    check the Finding whose span is [k, k + len(match)), where k is the
    index of the first occurrence of the matched text in the joined
    context, counted from the start of the context; with the radius in
    range the step does not panic. *)
Theorem AnalyzeRegexDiff_span_of_each_match (m : Middleware)
    (d : DiffObject) (st : State) :
  AnalyzeRegexDiff m d st = foldM (match_step m d) (regex_matches m d) st
  /\ (forall x s, In x (regex_matches m d) ->
        match_step m d x s = Panic "slice bounds out of range" s
        \/ exists context k,
             slice (Split_nl (Diff d))
                   (fst (context_bounds (len_slice (Split_nl (Diff d)))
                                        (match_index x) (Context (MFlags m))))
                   (snd (context_bounds (len_slice (Split_nl (Diff d)))
                                        (match_index x) (Context (MFlags m))))
             = Some context
             /\ k = Index (Join_nl context) (match_text x)
             /\ first_occurrence (Join_nl context) (match_text x) k
             /\ match_step m d x s
                = Ok (decide_report (SkipDuplicates (MFlags m)) (Reponame d) s
                        (match_text x,
                         LogFinding
                           (NewFinding (Reason (match_rule x))
                                       [k; k + len (match_text x)] d)
                           (Join_nl context))))
  /\ (forall x s, In x (regex_matches m d) ->
        0 <= Context (MFlags m) ->
        match_index x + Context (MFlags m) + 1 <= int_max ->
        is_panic (match_step m d x s) = false).
Proof.
  split; [apply AnalyzeRegexDiff_by_match|]. split.
  - intros x s _. unfold match_step.
    destruct (locate _ _ _ _) as [[[newDiff secret] t]|] eqn:L;
      [right | now left].
    pose proof (locate_text _ _ _ _ _ _ _ L) as ->.
    destruct (locate_Some _ _ _ _ _ _ _ L) as (context & Hs & -> & -> & S).
    destruct (str_slice_Some _ _ _ _ S) as ([H0 _] & _).
    destruct (Index_occurrence _ _ H0) as (pre & post & Hp & Hi & Hfirst).
    exists context, (Index (Join_nl context) (match_text x)).
    split; [exact Hs|]. split; [reflexivity|]. split.
    + split; [now exists pre, post|]. rewrite Hi. exact Hfirst.
    + now rewrite report_decides.
  - intros x s Hx Hr Hov. now rewrite match_step_in_range.
Qed.

(** ** The worker on what the adapter returns *)

(** C7. When the repository opens and [GetCommits] returns [commits],
    [AnalyzeRepo] handles the job by running, in this order: for each
    commit, from the last of [commits] to the first (so oldest first
    when the adapter lists newest first), for each of its changes in the
    order [GetCommitChanges] reports them, for each diff of the change
    in the order [GetDiffs] reports them, the analysis of the diff (or
    the one warning of a commit or change that cannot be read); then it
    decrements the counter and goes on with the next message. *)
Theorem AnalyzeRepo_oldest_commit_first (a : Adapter) (m : Middleware)
    (reponame : string) (rest : list Msg) (st : State)
    (repo : option Repository) (commits : list Commit) :
  OpenRepo a reponame = (repo, None) ->
  GetCommits a repo reponame = inl commits ->
  AnalyzeRepo a m (Job reponame :: rest) st
  = match
      foldM (run_item m)
        (flat_map
           (fun commit =>
              match GetCommitChanges a commit with
              | inr err =>
                  [Warn "Unable to get commit changes for hash %s: %s\n"
                        [Hash commit; Error err]]
              | inl changes =>
                  flat_map
                    (fun change =>
                       match GetDiffs a change reponame with
                       | inr err =>
                           [Warn "Unable to get diffs of %s: %s\n"
                                 [ChangeName change; Error err]]
                       | inl (diffs, filepath) =>
                           map (fun diff =>
                                  Analyze (NewDiffObject commit diff reponame
                                                         filepath))
                               diffs
                       end)
                    changes
              end)
           (rev commits))
        st
    with
    | Ok st' => AnalyzeRepo a m rest (finish st')
    | Panic why st' => Panicked why st'
    end.
Proof.
  intros Hopen Hcommits.
  change (flat_map _ (rev commits)) with (schedule a reponame commits).
  rewrite <- traverse_schedule. simpl. unfold job. rewrite Hopen.
  unfold walk. rewrite Hcommits.
  now destruct (traverse a m reponame commits st).
Qed.

Lemma AnalyzeRepo_oldest_commit_first_witness :
  AnalyzeRepo example_adapter (example_m 0 true) [Job "yar"; Done]
              (example_st 1)
  = match
      foldM (run_item (example_m 0 true))
        [Analyze (NewDiffObject {| Hash := "a1" |} example_diff "yar"
                                "secrets.txt")]
        (example_st 1)
    with
    | Ok st' => AnalyzeRepo example_adapter (example_m 0 true) [Done]
                            (finish st')
    | Panic why st' => Panicked why st'
    end.
Proof.
  exact (AnalyzeRepo_oldest_commit_first example_adapter (example_m 0 true)
           "yar" [Done] (example_st 1) (Some {| Path := "yar" |})
           [ {| Hash := "b2" |}; {| Hash := "a1" |} ] eq_refl eq_refl).
Defined.

(** ** Failures during the traversal *)

Lemma traverse_no_panic (a : Adapter) (m : Middleware) (reponame : string)
    (commits : list Commit) (st : State) :
  (forall d s, In (Analyze d) (schedule a reponame commits) ->
               is_panic (analyze_diff m d s) = false) ->
  traverse a m reponame commits st
  = Ok (run_items m (schedule a reponame commits) st).
Proof.
  intros Hok. rewrite traverse_schedule. unfold run_items.
  apply foldM_ok_fold_left. intros it s Hit.
  destruct it as [format args | d]; simpl; [reflexivity|].
  specialize (Hok d s Hit). now destruct (analyze_diff m d s).
Qed.

Lemma run_items_through (m : Middleware) (items : list Item) (it : Item)
    (st : State) :
  In it items ->
  exists before after,
    items = (before ++ it :: after)%list
    /\ run_items m items st
       = run_items m after (state_of (run_item m it (run_items m before st))).
Proof.
  intros H. destruct (in_split _ _ H) as (before & after & ->).
  exists before, after. split; [reflexivity|].
  unfold run_items. now rewrite fold_left_app.
Qed.

Lemma readable_diff_scheduled (a : Adapter) (reponame : string)
    (commits : list Commit) (commit : Commit) (changes : list Change)
    (change : Change) (diffs : list string) (filepath diff : string) :
  In commit commits -> GetCommitChanges a commit = inl changes ->
  In change changes -> GetDiffs a change reponame = inl (diffs, filepath) ->
  In diff diffs ->
  In (Analyze (NewDiffObject commit diff reponame filepath))
     (schedule a reponame commits).
Proof.
  intros Hc Hch Hin Hd Hdiff. unfold schedule. apply in_flat_map.
  exists commit. split; [now rewrite <- in_rev|].
  unfold commit_items. rewrite Hch. apply in_flat_map. exists change.
  split; [exact Hin|]. unfold change_items. rewrite Hd.
  apply in_map_iff. now exists diff.
Qed.

(** C9 (amended). As long as no analysis panics, the traversal runs the
    whole schedule: a commit whose changes cannot be listed, or a change
    whose diffs cannot be read, is logged with one warning at its place
    and the run goes on behind it, and every diff of every readable
    change of every listable commit is analysed at its place, whatever
    failed before it. *)
Theorem traverse_continues_after_failures (a : Adapter) (m : Middleware)
    (reponame : string) (commits : list Commit) (st : State) :
  (forall d s, In (Analyze d) (schedule a reponame commits) ->
               is_panic (analyze_diff m d s) = false) ->
  traverse a m reponame commits st
  = Ok (run_items m (schedule a reponame commits) st)
  /\ (forall commit err,
        In commit commits -> GetCommitChanges a commit = inr err ->
        exists before after,
          schedule a reponame commits
          = (before
             ++ Warn "Unable to get commit changes for hash %s: %s\n"
                     [Hash commit; Error err] :: after)%list
          /\ traverse a m reponame commits st
             = Ok (run_items m after
                     (emit (LogWarn
                              "Unable to get commit changes for hash %s: %s\n"
                              [Hash commit; Error err])
                           (run_items m before st))))
  /\ (forall commit changes change err,
        In commit commits -> GetCommitChanges a commit = inl changes ->
        In change changes -> GetDiffs a change reponame = inr err ->
        exists before after,
          schedule a reponame commits
          = (before
             ++ Warn "Unable to get diffs of %s: %s\n"
                     [ChangeName change; Error err] :: after)%list
          /\ traverse a m reponame commits st
             = Ok (run_items m after
                     (emit (LogWarn "Unable to get diffs of %s: %s\n"
                                    [ChangeName change; Error err])
                           (run_items m before st))))
  /\ (forall commit changes change diffs filepath diff,
        In commit commits -> GetCommitChanges a commit = inl changes ->
        In change changes ->
        GetDiffs a change reponame = inl (diffs, filepath) ->
        In diff diffs ->
        exists before after,
          schedule a reponame commits
          = (before
             ++ Analyze (NewDiffObject commit diff reponame filepath)
             :: after)%list
          /\ traverse a m reponame commits st
             = Ok (run_items m after
                     (state_of
                        (analyze_diff m
                           (NewDiffObject commit diff reponame filepath)
                           (run_items m before st))))).
Proof.
  intros Hok. pose proof (traverse_no_panic a m reponame commits st Hok) as Hrun.
  split; [exact Hrun|]. rewrite Hrun. split; [|split].
  - intros commit err Hc He.
    assert (Hin : In (Warn "Unable to get commit changes for hash %s: %s\n"
                           [Hash commit; Error err])
                     (schedule a reponame commits)).
    { unfold schedule. apply in_flat_map. exists commit.
      split; [now rewrite <- in_rev|]. unfold commit_items. rewrite He.
      now left. }
    destruct (run_items_through m _ _ st Hin) as (before & after & E & R).
    exists before, after. split; [exact E|]. now rewrite R.
  - intros commit changes change err Hc Hch Hin He.
    assert (Hw : In (Warn "Unable to get diffs of %s: %s\n"
                          [ChangeName change; Error err])
                    (schedule a reponame commits)).
    { unfold schedule. apply in_flat_map. exists commit.
      split; [now rewrite <- in_rev|]. unfold commit_items. rewrite Hch.
      apply in_flat_map. exists change. split; [exact Hin|].
      unfold change_items. rewrite He. now left. }
    destruct (run_items_through m _ _ st Hw) as (before & after & E & R).
    exists before, after. split; [exact E|]. now rewrite R.
  - intros commit changes change diffs filepath diff Hc Hch Hin Hd Hdiff.
    pose proof (readable_diff_scheduled a reponame commits commit changes
                  change diffs filepath diff Hc Hch Hin Hd Hdiff) as Hs.
    destruct (run_items_through m _ _ st Hs) as (before & after & E & R).
    exists before, after. split; [exact E|]. now rewrite R.
Qed.

Lemma traverse_continues_after_failures_witness :
  traverse failing_adapter (example_m 0 false) "yar"
           [ {| Hash := "c5" |}; {| Hash := "c3" |}; {| Hash := "c1" |} ]
           (example_st 1)
  = Ok (run_items (example_m 0 false)
          (schedule failing_adapter "yar"
             [ {| Hash := "c5" |}; {| Hash := "c3" |}; {| Hash := "c1" |} ])
          (example_st 1)).
Proof.
  refine (proj1 (traverse_continues_after_failures failing_adapter
                   (example_m 0 false) "yar"
                   [ {| Hash := "c5" |}; {| Hash := "c3" |};
                     {| Hash := "c1" |} ] (example_st 1) _)).
  intros d s Hd.
  assert (Hdiff : Diff d = example_diff).
  { vm_compute in Hd. destruct Hd as [Hd | [Hd | [Hd | []]]];
      try discriminate Hd; injection Hd as <-; reflexivity. }
  unfold analyze_diff. simpl.
  rewrite AnalyzeRegexDiff_in_range_run; [reflexivity | simpl; lia |].
  intros x Hx. unfold regex_matches in Hx. rewrite Hdiff in Hx.
  vm_compute in Hx. destruct Hx as [<- | []]. vm_compute. discriminate.
Defined.

(** C9, as stated, fails when an analysis panics: with the radius -1
    the changes of the oldest commit [c1] cannot be listed and are
    logged, the analysis of [c3] panics at its first match, and the
    diff of [c5], in which the rule matches too, is never analysed. *)
Lemma remaining_commit_not_analysed :
  traverse failing_adapter (example_m (-1) false) "yar"
           [ {| Hash := "c5" |}; {| Hash := "c3" |}; {| Hash := "c1" |} ]
           (example_st 1)
  = Panic "slice bounds out of range"
          {| RepoCount := 1; Secrets := ∅;
             Log := [LogWarn "Unable to get commit changes for hash %s: %s\n"
                             ["c1"; "object not found"]] |}
  /\ In (Analyze (NewDiffObject {| Hash := "c5" |} example_diff "yar"
                                "secrets.txt"))
        (schedule failing_adapter "yar"
           [ {| Hash := "c5" |}; {| Hash := "c3" |}; {| Hash := "c1" |} ])
  /\ regex_matches (example_m (-1) false)
                   (NewDiffObject {| Hash := "c5" |} example_diff "yar"
                                  "secrets.txt")
     = [(0, example_diff, token_rule)].
Proof.
  split; [vm_compute; reflexivity|]. split; [|vm_compute; reflexivity].
  vm_compute. right. right. now left.
Qed.

(** ** A repository that cannot be opened *)

(** Where [LogFail] returns, [job_under] and [AnalyzeRepo_under] are
    [job] and [AnalyzeRepo]. *)
Lemma job_under_returning (a : Adapter) (m : Middleware) (reponame : string)
    (st : State) :
  job_under false a m reponame st = Turn (job a m reponame st).
Proof.
  unfold job_under, job. destruct (OpenRepo a reponame) as [repo [e|]];
    [|reflexivity].
  now destruct (is_empty_remote e).
Qed.

Lemma AnalyzeRepo_under_returning (a : Adapter) (m : Middleware)
    (inbox : list Msg) (st : State) :
  AnalyzeRepo_under false a m inbox st = Turn (AnalyzeRepo a m inbox st).
Proof.
  revert st. induction inbox as [|[reponame|] rest IH]; intros st;
    [reflexivity| |reflexivity].
  simpl. rewrite job_under_returning.
  destruct (job a m reponame st); [apply IH | reflexivity ..].
Qed.










